(** * Inner disc edge: the planet trap and the migration force

    A shallow embedding of [src/Inner_edge.c] (REBOUNDx effect
    "inner_disc_edge") and the properties its description states.

    ** Number model

    The C code computes on IEEE-754 binary64 [double]s.  They are Rocq's
    primitive floats: [+], [-], [*], [/] and [<] below are the binary64
    operations, rounded to nearest even, with their overflow to an
    infinity, their underflow, their signed zeros and their NaN.  The
    operations are taken one by one, in the order the C expression gives
    them (no extended precision, no fused multiply-add).  [cos] is the
    cosine of the C library: it is a parameter of the embedding, and what
    a property needs of it is a hypothesis of that property. *)

From Stdlib Require Import Floats ZArith Bool Lia String List.
Import ListNotations.

Open Scope float_scope.

(** ** Binary64 *)

Definition double : Set := float.

(** [INFINITY] and [M_PI] of math.h (3.14159265358979323846). *)
Definition INFINITY : double := infinity.
Definition M_PI : double := 0x1.921fb54442d18p+1.

(** Zero or a finite number: not a NaN and not an infinity. *)
Definition finite_double (v : double) : Prop :=
  match Prim2SF v with
  | S754_zero _ | S754_finite _ _ _ => True
  | _ => False
  end.

Definition zero_double (v : double) : Prop := v = 0 \/ v = -0.


(** ** The planet trap (Inner_edge.c, lines 83-99) *)

Section Libm.

Variable cos : double -> double.

(** The argument of the cosine of line 91. *)
Definition trap_angle (r h dedge : double) : double :=
  ((dedge * (1 + h) - r) * 2 * M_PI) / (4 * h * dedge).

Definition rebx_calculate_planet_trap (r h dedge : double) : double :=
  if dedge * (1 + h) <? r then 1
  else if dedge * (1 - h) <? r then
    5.5 * cos (((dedge * (1 + h) - r) * 2 * M_PI) / (4 * h * dedge)) - 4.5
  else -10.

End Libm.

(** ** Data model *)

Open Scope string_scope.
Open Scope float_scope.

(** A parameter attached to a particle or to a force is a [double] or an
    [int]; a pointer to one is [Some], [NULL] is [None]. *)
Inductive rebx_param_value : Type :=
| PARAM_DOUBLE (d : double)
| PARAM_INT (i : Z).

Definition rebx_params : Type := list (string * rebx_param_value).

(** Modelled from the spec: [rebx_get_param] is declared in reboundx.h and
    not part of Inner_edge.c.  "Named optional-parameter lookup: (owner =
    body or force, name) -> optional scalar (double) or optional enum,
    absent meaning not configured": the first parameter of that name in the
    owner's list, [None] (a null pointer) when there is none. *)
Fixpoint rebx_get_param (ap : rebx_params) (name : string)
  : option rebx_param_value :=
  match ap with
  | [] => None
  | (k, v) :: rest =>
      if String.eqb k name then Some v else rebx_get_param rest name
  end.

Definition is_null {A : Type} (ptr : option A) : bool :=
  match ptr with None => true | Some _ => false end.

(** [*ptr] for a [double*] and for an [int*]: dereferencing [NULL], or a
    parameter stored with the other type, has no defined value. *)
Definition load_double (ptr : option rebx_param_value) : option double :=
  match ptr with Some (PARAM_DOUBLE d) => Some d | _ => None end.

Definition load_int (ptr : option rebx_param_value) : option Z :=
  match ptr with Some (PARAM_INT i) => Some i | _ => None end.

Record reb_particle : Type := mk_particle {
  x : double; y : double; z : double;
  vx : double; vy : double; vz : double;
  m : double;
  ap : rebx_params
}.

Record reb_vec3d : Type := mk_vec3d {
  vec_x : double; vec_y : double; vec_z : double
}.

(** Of [struct reb_orbit] only the elements the description names. *)
Record reb_orbit : Type := mk_orbit {
  a : double; e : double; inc : double
}.

Record reb_simulation : Type := mk_simulation { G : double }.

Record rebx_force : Type := mk_force { force_ap : rebx_params }.

(** [enum REBX_COORDINATES] of reboundx.h; a C enum holds any [int]. *)
Definition REBX_COORDINATES : Type := Z.
Definition REBX_COORDINATES_JACOBI : REBX_COORDINATES := 0%Z.
Definition REBX_COORDINATES_BARYCENTRIC : REBX_COORDINATES := 1%Z.
Definition REBX_COORDINATES_PARTICLE : REBX_COORDINATES := 2%Z.

(** Undefined behaviour (a null dereference) is [None]. *)
Definition bind {A B : Type} (c : option A) (k : A -> option B) : option B :=
  match c with Some v => k v | None => None end.

Notation "v <- c ;; k" := (bind c (fun v => k))
  (at level 61, c at next level, right associativity).

(** The three locals the first half of the evaluator settles. *)
Record timescales : Type := mk_timescales {
  invtau_a : double; tau_e : double; tau_inc : double
}.

(** ** The force evaluator (Inner_edge.c, lines 125-175) *)

Section ForceEvaluator.

Variable cos : double -> double.

(** The orbital-element conversion of REBOUND: the orbit it returns and the
    value it writes to [*err]. *)
Variable reb_tools_particle_to_orbit_err :
  double -> reb_particle -> reb_particle -> reb_orbit * Z.

(** Lines 126-134 and 144-159. *)
Definition read_timescales (sim : reb_simulation) (force : rebx_force)
    (p source : reb_particle) : option timescales :=
  let invtau_a := 0 in
  let tau_e := INFINITY in
  let tau_inc := INFINITY in
  let tau_a_ptr := rebx_get_param (ap p) "tau_a" in
  let tau_e_ptr := rebx_get_param (ap p) "tau_e" in
  let tau_inc_ptr := rebx_get_param (ap p) "tau_inc" in
  let dedge := rebx_get_param (force_ap force) "inner_disc_edge" in
  let h := rebx_get_param (force_ap force) "disc_edge_width" in
  let '(o, err) := reb_tools_particle_to_orbit_err (G sim) p source in
  let a0 := a o in
  invtau_a <- (if negb (is_null tau_a_ptr) then
                 h_v <- load_double h ;;
                 dedge_v <- load_double dedge ;;
                 tau_a_v <- load_double tau_a_ptr ;;
                 Some (rebx_calculate_planet_trap cos a0 h_v dedge_v
                       / tau_a_v)
               else Some invtau_a) ;;
  tau_e <- (if negb (is_null tau_e_ptr) then load_double tau_e_ptr
            else Some tau_e) ;;
  tau_inc <- (if negb (is_null tau_inc_ptr) then load_double tau_inc_ptr
              else Some tau_inc) ;;
  Some (mk_timescales invtau_a tau_e tau_inc).

(** Lines 136-142 and 161-174. *)
Definition acceleration (ts : timescales) (p source : reb_particle)
  : reb_vec3d :=
  let dvx := vx p - vx source in
  let dvy := vy p - vy source in
  let dvz := vz p - vz source in
  let dx := x p - x source in
  let dy := y p - y source in
  let dz := z p - z source in
  let r2 := dx * dx + dy * dy + dz * dz in
  let a_x := dvx * invtau_a ts / 2 in
  let a_y := dvy * invtau_a ts / 2 in
  let a_z := dvz * invtau_a ts / 2 in
  if (tau_e ts <? INFINITY) || (tau_inc ts <? INFINITY) then
    let vdotr := dx * dvx + dy * dvy + dz * dvz in
    let prefac := 2 * vdotr / r2 / tau_e ts in
    mk_vec3d (a_x + prefac * dx)
             (a_y + prefac * dy)
             (a_z + (prefac * dz + 2 * dvz / tau_inc ts))
  else mk_vec3d a_x a_y a_z.

Definition rebx_calculating_orbits_with_inner_disc_edge
    (sim : reb_simulation) (force : rebx_force) (p source : reb_particle)
  : option reb_vec3d :=
  ts <- read_timescales sim force p source ;;
  Some (acceleration ts p source).

(** ** The registered entry point (Inner_edge.c, lines 178-187) *)

Section Dispatch.

(** What applying a force to the particles yields. *)
Variable applied : Type.

(** The frame and back-reaction helper of REBOUNDx (core.c). *)
Variable rebx_com_force :
  reb_simulation -> rebx_force -> REBX_COORDINATES -> Z -> string ->
  (reb_simulation -> rebx_force -> reb_particle -> reb_particle ->
   option reb_vec3d) ->
  list reb_particle -> Z -> applied.

Definition rebx_inner_disc_edge (sim : reb_simulation) (force : rebx_force)
    (particles : list reb_particle) (N : Z) : option applied :=
  let ptr := rebx_get_param (force_ap force) "coordinates" in
  let coordinates := REBX_COORDINATES_JACOBI in
  coordinates <- (if negb (is_null ptr) then load_int ptr
                  else Some coordinates) ;;
  let back_reactions_inclusive := 1%Z in
  let reference_name := "primary" in
  Some (rebx_com_force sim force coordinates back_reactions_inclusive
          reference_name rebx_calculating_orbits_with_inner_disc_edge
          particles N).

End Dispatch.

End ForceEvaluator.

(** ** The locals of the evaluator *)

(** [dx], [dy], [dz] and [dvx], [dvy], [dvz] of lines 136-141. *)
Definition rel_x (p source : reb_particle) : double := x p - x source.
Definition rel_y (p source : reb_particle) : double := y p - y source.
Definition rel_z (p source : reb_particle) : double := z p - z source.
Definition rel_vx (p source : reb_particle) : double := vx p - vx source.
Definition rel_vy (p source : reb_particle) : double := vy p - vy source.
Definition rel_vz (p source : reb_particle) : double := vz p - vz source.

(** [r2], [vdotr] and [prefac] of lines 142, 168 and 169. *)
Definition r2_of (p source : reb_particle) : double :=
  rel_x p source * rel_x p source + rel_y p source * rel_y p source
  + rel_z p source * rel_z p source.

Definition vdotr_of (p source : reb_particle) : double :=
  rel_x p source * rel_vx p source + rel_y p source * rel_vy p source
  + rel_z p source * rel_vz p source.

Definition prefac_of (ts : timescales) (p source : reb_particle) : double :=
  2 * vdotr_of p source / r2_of p source / tau_e ts.

(** The vector of lines 163-165, and what lines 170-172 add to it. *)
Definition drag_term (ts : timescales) (p source : reb_particle) : reb_vec3d :=
  mk_vec3d (rel_vx p source * invtau_a ts / 2)
           (rel_vy p source * invtau_a ts / 2)
           (rel_vz p source * invtau_a ts / 2).

Definition vdotr_term (ts : timescales) (p source : reb_particle)
  : reb_vec3d :=
  mk_vec3d (prefac_of ts p source * rel_x p source)
           (prefac_of ts p source * rel_y p source)
           (prefac_of ts p source * rel_z p source
            + 2 * rel_vz p source / tau_inc ts).

Definition vec_add (u v : reb_vec3d) : reb_vec3d :=
  mk_vec3d (vec_x u + vec_x v) (vec_y u + vec_y v) (vec_z u + vec_z v).


Definition vec_nan : reb_vec3d := mk_vec3d nan nan nan.

(** The test of line 167. *)
Definition damps_e_or_inc (ts : timescales) : bool :=
  (tau_e ts <? INFINITY) || (tau_inc ts <? INFINITY).


Definition absent_or_double (ptr : option rebx_param_value) : Prop :=
  match ptr with Some (PARAM_INT _) => False | _ => True end.

Definition double_param (ptr : option rebx_param_value) : Prop :=
  match ptr with Some (PARAM_DOUBLE _) => True | _ => False end.

(** [a0] of line 149. *)
Definition a0_of
    (conv : double -> reb_particle -> reb_particle -> reb_orbit * Z)
    (sim : reb_simulation) (p source : reb_particle) : double :=
  a (fst (conv (G sim) p source)).

(** The parameters with which line 152 and lines 155, 158 read no null
    pointer and no parameter of the other type. *)
Definition well_configured (force : rebx_force) (p : reb_particle) : Prop :=
  absent_or_double (rebx_get_param (ap p) "tau_e")
  /\ absent_or_double (rebx_get_param (ap p) "tau_inc")
  /\ (rebx_get_param (ap p) "tau_a" = None
      \/ (double_param (rebx_get_param (ap p) "tau_a")
          /\ double_param (rebx_get_param (force_ap force) "disc_edge_width")
          /\ double_param
               (rebx_get_param (force_ap force) "inner_disc_edge"))).

(** ** Values and states *)

(** Equal, or both a zero: the sign of a zero apart. *)
Definition same_value (u v : double) : Prop :=
  u = v \/ (zero_double u /\ zero_double v).




Definition finite_position (q : reb_particle) : Prop :=
  finite_double (x q) /\ finite_double (y q) /\ finite_double (z q).

Definition same_position (p source : reb_particle) : Prop :=
  x p = x source /\ y p = y source /\ z p = z source.

Definition zero_or_nan (v : double) : Prop := zero_double v \/ v = nan.

(** ** The order of binary64

    A double that is not a NaN is placed on the integer line: a finite
    +-m 2^e at +-m 2^(e + 2200) (every exponent that occurs, also in an
    exact product, is above -2200), the infinities at +-2^5000, beyond all
    of them and beyond every exact sum and product of them.  Both zeros
    are at 0. *)

Definition scale : Z := 2200.

Definition top : Z := (2 ^ 5000)%Z.

Definition signed (s : bool) (v : Z) : Z := if s then (- v)%Z else v.

Definition sval (f : spec_float) : Z :=
  match f with
  | S754_zero _ => 0%Z
  | S754_infinity s => signed s top
  | S754_nan => 0%Z
  | S754_finite s m e => signed s (Zpos m * 2 ^ (e + scale))%Z
  end.

Definition dval (v : double) : Z := sval (Prim2SF v).

Definition is_number (v : double) : Prop := Prim2SF v <> S754_nan.

(** ** Rounding to nearest, ties to even

    Rounding as the floating-point unit does it, on the integer line:
    [rne w g] is w / 2^g rounded to the nearest integer, ties to even;
    [grid w] is the exponent of the last place of a double of the size of
    w (52 places below its leading bit, or the subnormal grid);
    [rz w] is w rounded to that grid; [cap] sends what is beyond the
    largest double to infinity; [rzs] does the same on both sides of
    zero. *)

Definition rne (w g : Z) : Z :=
  let q := (w / 2 ^ g)%Z in
  let rho := (w mod 2 ^ g)%Z in
  if (2 * rho <? 2 ^ g)%Z then q
  else if (2 ^ g <? 2 * rho)%Z then (q + 1)%Z
  else if Z.even q then q else (q + 1)%Z.

Definition grid (w : Z) : Z :=
  Z.max (Z.log2 w + 1 - 53)%Z (scale - 1074)%Z.

Definition rz (w : Z) : Z := (rne w (grid w) * 2 ^ grid w)%Z.

Definition cap (v : Z) : Z :=
  if (v <? 2 ^ (1024 + scale))%Z then v else top.

Definition rzs (v : Z) : Z :=
  if (v <? 0)%Z then (- cap (rz (- v)))%Z else cap (rz v).

(** ** Sample calls *)

(** 0.1 and 0.001 to the nearest double. *)
Definition d0_1 : double := 0x1.999999999999ap-4.
Definition d0_001 : double := 0x1.0624dd2f1a9fcp-10.

(** A stand-in for the cosine of the C library that follows Annex F on
    the zeros, the infinities and NaN, and answers 1 elsewhere. *)
Definition sample_cos (v : double) : double :=
  if is_finite v then 1 else nan.

Definition reb_orbit_nan : reb_orbit := mk_orbit nan nan nan.

(** A stand-in for the orbital-element conversion: failure 1 and NaN
    elements when the reference body has no mass (as REBOUND reports it),
    a circular orbit of semimajor axis 1 otherwise. *)
Definition sample_conversion (G : double) (p primary : reb_particle)
  : reb_orbit * Z :=
  if 0 <? m primary then (mk_orbit 1 0 0, 0%Z)
  else (reb_orbit_nan, 1%Z).

Definition sample_sim : reb_simulation := mk_simulation 1.

Definition sample_star : reb_particle := mk_particle 0 0 0 0 0 0 1 [].

Definition massless_star : reb_particle := mk_particle 0 0 0 0 0 0 0 [].

(** A planet at (1,0,0) moving with velocity (0,1,0). *)
Definition sample_planet (params : rebx_params) : reb_particle :=
  mk_particle 1 0 0 0 1 0 d0_001 params.

Definition edge_force : rebx_force :=
  mk_force [("inner_disc_edge", PARAM_DOUBLE 1);
            ("disc_edge_width", PARAM_DOUBLE d0_1)].

Definition force_without_width : rebx_force :=
  mk_force [("inner_disc_edge", PARAM_DOUBLE 1)].

Definition barycentric_force : rebx_force :=
  mk_force [("coordinates", PARAM_INT REBX_COORDINATES_BARYCENTRIC);
            ("inner_disc_edge", PARAM_DOUBLE 1);
            ("disc_edge_width", PARAM_DOUBLE d0_1)].

(** A helper that only records the frame and the back-reaction flag it is
    called with. *)
Definition record_frame (sim : reb_simulation) (force : rebx_force)
    (coordinates : REBX_COORDINATES) (back_reactions_inclusive : Z)
    (reference_name : string)
    (calculate_effect : reb_simulation -> rebx_force -> reb_particle ->
                        reb_particle -> option reb_vec3d)
    (particles : list reb_particle) (N : Z) : REBX_COORDINATES * Z :=
  (coordinates, back_reactions_inclusive).



(** The angle the code computes at r = dedge = 1, h = 0.1: six units in
    the last place above the double nearest to pi/2. *)
Definition angle_at_edge : double := 0x1.921fb54442d1ep+0.

Definition d1e_200 : double := 0x1.87e92154ef7acp-665.


(** A planet at (1e-200,0,0) moving with velocity (1,0,0). *)
Definition near_planet (params : rebx_params) : reb_particle :=
  mk_particle d1e_200 0 0 1 0 0 d0_001 params.


(** * Properties *)

(** ** Special values of binary64 *)

Lemma double_of_spec (v : double) (f : spec_float) :
  Prim2SF v = f -> v = SF2Prim f.
Proof. intros <-. symmetry. apply SF2Prim_Prim2SF. Qed.

Lemma zero_of_spec (v : double) (s : bool) :
  Prim2SF v = S754_zero s -> zero_double v.
Proof.
  intros H. apply double_of_spec in H. subst v.
  destruct s; [right | left]; reflexivity.
Qed.

Lemma spec_of_zero (v : double) :
  zero_double v -> exists s, Prim2SF v = S754_zero s.
Proof. intros [-> | ->]; eexists; reflexivity. Qed.

Lemma nan_of_spec (v : double) : Prim2SF v = S754_nan -> v = nan.
Proof. intros H. apply double_of_spec in H. exact H. Qed.

Lemma add_nan_r (v : double) : v + nan = nan.
Proof.
  apply nan_of_spec. rewrite add_spec. change (Prim2SF nan) with S754_nan.
  destruct (Prim2SF v); reflexivity.
Qed.

Lemma mul_nan_l (v : double) : nan * v = nan.
Proof.
  apply nan_of_spec. rewrite mul_spec. reflexivity.
Qed.

Lemma mul_nan_r (v : double) : v * nan = nan.
Proof.
  apply nan_of_spec. rewrite mul_spec. change (Prim2SF nan) with S754_nan.
  destruct (Prim2SF v); reflexivity.
Qed.

Lemma add_nan_l (v : double) : nan + v = nan.
Proof. apply nan_of_spec. rewrite add_spec. reflexivity. Qed.

Lemma sub_nan_r (v : double) : v - nan = nan.
Proof.
  apply nan_of_spec. rewrite sub_spec. change (Prim2SF nan) with S754_nan.
  destruct (Prim2SF v); reflexivity.
Qed.

Lemma div_nan_l (v : double) : nan / v = nan.
Proof. apply nan_of_spec. rewrite div_spec. reflexivity. Qed.

Lemma ltb_nan_r (v : double) : (v <? nan) = false.
Proof.
  rewrite ltb_spec. change (Prim2SF nan) with S754_nan.
  destruct (Prim2SF v); reflexivity.
Qed.

Lemma ltb_nan_l (v : double) : (nan <? v) = false.
Proof. rewrite ltb_spec. reflexivity. Qed.

(** ** Zeros of binary64 *)

Lemma zero_or_nan_of_spec (v : double) :
  match Prim2SF v with S754_zero _ | S754_nan => True | _ => False end ->
  zero_or_nan v.
Proof.
  destruct (Prim2SF v) eqn:E; try contradiction; intros _.
  - left. apply (zero_of_spec _ _ E).
  - right. apply nan_of_spec, E.
Qed.

Lemma spec_of_zero_or_nan (v : double) :
  zero_or_nan v ->
  (exists s, Prim2SF v = S754_zero s) \/ Prim2SF v = S754_nan.
Proof.
  intros [H | ->]; [left; apply spec_of_zero, H | right; reflexivity].
Qed.

(** A zero times anything is a zero or a NaN. *)
Lemma mul_zero_l (u v : double) : zero_double u -> zero_or_nan (u * v).
Proof.
  intros Hu. apply zero_or_nan_of_spec. rewrite mul_spec.
  destruct (spec_of_zero u Hu) as [s ->].
  destruct (Prim2SF v); exact I.
Qed.

Lemma add_zero_or_nan (u v : double) :
  zero_or_nan u -> zero_or_nan v -> zero_or_nan (u + v).
Proof.
  intros Hu Hv. apply zero_or_nan_of_spec. rewrite add_spec.
  destruct (spec_of_zero_or_nan u Hu) as [[s ->] | ->];
    destruct (spec_of_zero_or_nan v Hv) as [[t ->] | ->];
    try exact I.
  destruct s, t; exact I.
Qed.

Lemma two_mul_zero_or_nan (v : double) : zero_or_nan v -> zero_or_nan (2 * v).
Proof.
  intros Hv. apply zero_or_nan_of_spec. rewrite mul_spec.
  destruct (spec_of_zero_or_nan v Hv) as [[s ->] | ->]; exact I.
Qed.

(** A zero or a NaN over a zero is a NaN. *)
Lemma div_by_zero_nan (u v : double) :
  zero_or_nan u -> zero_double v -> u / v = nan.
Proof.
  intros Hu Hv. apply nan_of_spec. rewrite div_spec.
  destruct (spec_of_zero_or_nan u Hu) as [[s ->] | ->];
    destruct (spec_of_zero v Hv) as [t ->]; reflexivity.
Qed.

(** A finite number minus itself is +0. *)
Lemma sub_self (v : double) : finite_double v -> v - v = 0.
Proof.
  unfold finite_double. intros Hv.
  apply Prim2SF_inj. rewrite sub_spec.
  destruct (Prim2SF v) as [s | s | | s mv ev]; try contradiction.
  - destruct s; reflexivity.
  - unfold SF64sub, SFsub. rewrite Z.min_id. unfold shl_align.
    rewrite Z.sub_diag. cbn [fst]. rewrite ?Z.sub_diag. reflexivity.
Qed.



Lemma same_value_refl (v : double) : same_value v v.
Proof. left. reflexivity. Qed.

(** ** The evaluator, step by step *)

Lemma acceleration_split (ts : timescales) (p source : reb_particle) :
  acceleration ts p source
  = if damps_e_or_inc ts
    then vec_add (drag_term ts p source) (vdotr_term ts p source)
    else drag_term ts p source.
Proof.
  unfold acceleration, damps_e_or_inc.
  destruct ((tau_e ts <? INFINITY) || (tau_inc ts <? INFINITY));
    reflexivity.
Qed.


Section EvaluatorFacts.

Variable cos : double -> double.
Variable conv : double -> reb_particle -> reb_particle -> reb_orbit * Z.
Variables (sim : reb_simulation) (force : rebx_force).
Variables (p source : reb_particle).



(** With [tau_a] set and the width or the edge missing, line 152
    dereferences a null pointer. *)
Lemma read_timescales_null_dereference :
  rebx_get_param (ap p) "tau_a" <> None ->
  rebx_get_param (force_ap force) "disc_edge_width" = None
  \/ rebx_get_param (force_ap force) "inner_disc_edge" = None ->
  read_timescales cos conv sim force p source = None.
Proof.
  intros Ha Hmiss. unfold read_timescales.
  destruct (conv (G sim) p source) as [o err].
  destruct (rebx_get_param (ap p) "tau_a") as [v |]; [| contradiction].
  cbn [is_null negb]. destruct Hmiss as [E | E]; rewrite E.
  - reflexivity.
  - destruct (load_double (rebx_get_param (force_ap force) "disc_edge_width"));
      reflexivity.
Qed.

End EvaluatorFacts.

(** ** The order of binary64 *)

Lemma digits2_pos_size (q : positive) : digits2_pos q = Pos.size q.
Proof. induction q; simpl; congruence. Qed.

Lemma digits2_bounds (q : positive) :
  (2 ^ (Zpos (digits2_pos q) - 1) <= Zpos q < 2 ^ Zpos (digits2_pos q))%Z.
Proof.
  rewrite digits2_pos_size.
  induction q as [q IH | q IH |]; cbn [Pos.size].
  - rewrite Pos2Z.inj_succ, Z.pow_succ_r by lia.
    replace (Z.succ (Zpos (Pos.size q)) - 1)%Z
      with (Z.succ (Zpos (Pos.size q) - 1))%Z by lia.
    rewrite Z.pow_succ_r by lia. lia.
  - rewrite Pos2Z.inj_succ, Z.pow_succ_r by lia.
    replace (Z.succ (Zpos (Pos.size q)) - 1)%Z
      with (Z.succ (Zpos (Pos.size q) - 1))%Z by lia.
    rewrite Z.pow_succ_r by lia. lia.
  - cbn. lia.
Qed.

Lemma pow2_pos (k : Z) : (0 <= k -> 0 < 2 ^ k)%Z.
Proof. intros Hk. apply Z.pow_pos_nonneg; lia. Qed.

Lemma pow2_le (j k : Z) : (0 <= j <= k -> 2 ^ j <= 2 ^ k)%Z.
Proof. intros Hk. apply Z.pow_le_mono_r; lia. Qed.

Lemma pow2_lt (j k : Z) : (0 <= j < k -> 2 ^ j < 2 ^ k)%Z.
Proof. intros Hk. apply Z.pow_lt_mono_r; lia. Qed.

(** A valid finite double: at most 53 digits, exponent between -1074 and
    971, and 53 digits above the least exponent. *)
Lemma valid_finite (s : bool) (q : positive) (k : Z) :
  valid_binary (S754_finite s q k) = true ->
  (- 1074 <= k <= 971)%Z
  /\ (Zpos (digits2_pos q) <= 53)%Z
  /\ (- 1074 < k -> Zpos (digits2_pos q) = 53)%Z.
Proof.
  cbn [SpecFloat.valid_binary]. unfold bounded, canonical_mantissa, fexp, emin.
  change prec with 53%Z. change emax with 1024%Z.
  intros H. apply andb_true_iff in H as [Hc Hb].
  apply Z.eqb_eq in Hc. apply Z.leb_le in Hb. lia.
Qed.

Lemma valid_finite_val (s : bool) (q : positive) (k : Z) :
  valid_binary (S754_finite s q k) = true ->
  (0 < Zpos q * 2 ^ (k + scale) < 2 ^ 4000)%Z
  /\ (- 1074 < k -> 2 ^ (52 + k + scale) <= Zpos q * 2 ^ (k + scale))%Z
  /\ (Zpos q * 2 ^ (k + scale) < 2 ^ (53 + k + scale))%Z.
Proof.
  intros Hv. destruct (valid_finite s q k Hv) as (Hk & Hd & Hn).
  pose proof (digits2_bounds q) as [Hlo Hhi]. unfold scale.
  assert (Hp : (0 < 2 ^ (k + 2200))%Z) by (apply pow2_pos; lia).
  assert (H53 : (Zpos q < 2 ^ 53)%Z).
  { eapply Z.lt_le_trans; [exact Hhi |]. apply pow2_le. lia. }
  assert (Hup : (Zpos q * 2 ^ (k + 2200) < 2 ^ (53 + k + 2200))%Z).
  { replace (53 + k + 2200)%Z with (53 + (k + 2200))%Z by lia.
    rewrite (Z.pow_add_r 2 53 (k + 2200)) by lia.
    apply Z.mul_lt_mono_pos_r; assumption. }
  split; [split; [apply Z.mul_pos_pos; lia |] | split; [| exact Hup]].
  - eapply Z.lt_le_trans; [exact Hup |]. apply pow2_le. lia.
  - intros Hk1. specialize (Hn Hk1). rewrite Hn in Hlo.
    replace (52 + k + 2200)%Z with (52 + (k + 2200))%Z by lia.
    rewrite (Z.pow_add_r 2 52 (k + 2200)) by lia.
    change (53 - 1)%Z with 52%Z in Hlo.
    apply Z.mul_le_mono_nonneg_r; lia.
Qed.

Lemma valid_finite_lt (s1 s2 : bool) (q1 q2 : positive) (k1 k2 : Z) :
  valid_binary (S754_finite s1 q1 k1) = true ->
  valid_binary (S754_finite s2 q2 k2) = true ->
  (k1 < k2)%Z ->
  (Zpos q1 * 2 ^ (k1 + scale) < Zpos q2 * 2 ^ (k2 + scale))%Z.
Proof.
  intros H1 H2 Hk.
  destruct (valid_finite s1 q1 k1 H1) as (Hk1 & _ & _).
  destruct (valid_finite_val s1 q1 k1 H1) as (_ & _ & Hup).
  destruct (valid_finite_val s2 q2 k2 H2) as (_ & Hlo & _).
  eapply Z.lt_le_trans; [exact Hup |].
  eapply Z.le_trans; [| apply Hlo; lia].
  apply pow2_le. unfold scale. lia.
Qed.

Lemma compare_cont_eq (q1 q2 : positive) :
  Pos.compare_cont Eq q1 q2 = (Zpos q1 ?= Zpos q2)%Z.
Proof. reflexivity. Qed.

Ltac solve_compare :=
  f_equal; symmetry;
  first [ apply Z.compare_lt_iff; lia
        | apply Z.compare_gt_iff; lia
        | apply Z.compare_eq_iff; lia ].

(** On valid doubles that are no NaN, the comparison of the floating-point
    unit is the comparison of the places on the integer line. *)
Lemma SFcompare_sval (f1 f2 : spec_float) :
  valid_binary f1 = true -> valid_binary f2 = true ->
  f1 <> S754_nan -> f2 <> S754_nan ->
  SFcompare f1 f2 = Some (sval f1 ?= sval f2)%Z.
Proof.
  intros V1 V2 N1 N2.
  assert (Hbig : (2 ^ 4000 < top)%Z) by (apply pow2_lt; lia).
  assert (Hpos : (0 < 2 ^ 4000)%Z) by (apply pow2_pos; lia).
  destruct f1 as [s1 | s1 | | s1 q1 k1]; try congruence;
    destruct f2 as [s2 | s2 | | s2 q2 k2]; try congruence;
    cbn [SFcompare sval];
    try (destruct (valid_finite_val s1 q1 k1 V1) as ((P1 & B1) & _));
    try (destruct (valid_finite_val s2 q2 k2 V2) as ((P2 & B2) & _));
    try (destruct s1, s2; cbn [signed]; solve_compare; fail);
    try (destruct s1; cbn [signed]; solve_compare; fail);
    try (destruct s2; cbn [signed]; solve_compare; fail);
    try reflexivity.
  destruct s1, s2; cbn [signed]; try solve_compare.
  - (* both negative *)
    destruct (Z.compare_spec k1 k2) as [Hk | Hk | Hk].
    + subst k2. rewrite compare_cont_eq.
      assert (Hp : (0 < 2 ^ (k1 + scale))%Z)
        by (apply pow2_pos; destruct (valid_finite _ _ _ V1); unfold scale;
            lia).
      destruct (Z.compare_spec (Zpos q1) (Zpos q2)) as [E | L | L];
        cbn [CompOpp]; f_equal; symmetry;
        [ apply Z.compare_eq_iff | apply Z.compare_gt_iff
        | apply Z.compare_lt_iff ]; nia.
    + pose proof (valid_finite_lt _ _ _ _ _ _ V1 V2 Hk). solve_compare.
    + pose proof (valid_finite_lt _ _ _ _ _ _ V2 V1 Hk). solve_compare.
  - destruct (Z.compare_spec k1 k2) as [Hk | Hk | Hk].
    + subst k2. rewrite compare_cont_eq.
      assert (Hp : (0 < 2 ^ (k1 + scale))%Z)
        by (apply pow2_pos; destruct (valid_finite _ _ _ V1); unfold scale;
            lia).
      destruct (Z.compare_spec (Zpos q1) (Zpos q2)) as [E | L | L];
        f_equal; symmetry;
        [ apply Z.compare_eq_iff | apply Z.compare_lt_iff
        | apply Z.compare_gt_iff ]; nia.
    + pose proof (valid_finite_lt _ _ _ _ _ _ V1 V2 Hk). solve_compare.
    + pose proof (valid_finite_lt _ _ _ _ _ _ V2 V1 Hk). solve_compare.
Qed.

Lemma is_number_valid (v : double) :
  valid_binary (Prim2SF v) = true.
Proof. apply Prim2SF_valid. Qed.

Lemma compare_dval (u v : double) :
  is_number u -> is_number v ->
  SFcompare (Prim2SF u) (Prim2SF v) = Some (dval u ?= dval v)%Z.
Proof.
  intros Hu Hv. apply SFcompare_sval; auto using Prim2SF_valid.
Qed.

Lemma ltb_dval (u v : double) :
  is_number u -> is_number v -> (u <? v) = (dval u <? dval v)%Z.
Proof.
  intros Hu Hv. rewrite ltb_spec. unfold SFltb.
  rewrite (compare_dval u v Hu Hv). unfold Z.ltb.
  destruct (dval u ?= dval v)%Z; reflexivity.
Qed.

Lemma leb_dval (u v : double) :
  is_number u -> is_number v -> (u <=? v) = (dval u <=? dval v)%Z.
Proof.
  intros Hu Hv. rewrite leb_spec. unfold SFleb.
  rewrite (compare_dval u v Hu Hv). unfold Z.leb.
  destruct (dval u ?= dval v)%Z; reflexivity.
Qed.

Lemma ltb_true_numbers (u v : double) :
  (u <? v) = true -> is_number u /\ is_number v.
Proof.
  rewrite ltb_spec. unfold SFltb, is_number.
  destruct (Prim2SF u), (Prim2SF v); cbn; intros H;
    try discriminate; split; discriminate.
Qed.

Lemma leb_true_numbers (u v : double) :
  (u <=? v) = true -> is_number u /\ is_number v.
Proof.
  rewrite leb_spec. unfold SFleb, is_number.
  destruct (Prim2SF u), (Prim2SF v); cbn; intros H;
    try discriminate; split; discriminate.
Qed.

Lemma ltb_true_dval (u v : double) :
  (u <? v) = true -> is_number u /\ is_number v /\ (dval u < dval v)%Z.
Proof.
  intros H. destruct (ltb_true_numbers u v H) as [Hu Hv].
  rewrite (ltb_dval u v Hu Hv) in H. apply Z.ltb_lt in H. auto.
Qed.

Lemma leb_true_dval (u v : double) :
  (u <=? v) = true -> is_number u /\ is_number v /\ (dval u <= dval v)%Z.
Proof.
  intros H. destruct (leb_true_numbers u v H) as [Hu Hv].
  rewrite (leb_dval u v Hu Hv) in H. apply Z.leb_le in H. auto.
Qed.

Lemma ltb_false_of_le (u v : double) :
  is_number u -> is_number v -> (dval v <= dval u)%Z -> (u <? v) = false.
Proof.
  intros Hu Hv H. rewrite (ltb_dval u v Hu Hv). apply Z.ltb_ge. exact H.
Qed.

Lemma leb_true_of_le (u v : double) :
  is_number u -> is_number v -> (dval u <= dval v)%Z -> (u <=? v) = true.
Proof.
  intros Hu Hv H. rewrite (leb_dval u v Hu Hv). apply Z.leb_le. exact H.
Qed.

(** ** Rounding on the integer line *)

Section Rounding.

Local Open Scope Z_scope.

Lemma iter_pos_nat {A : Type} (f : A -> A) (p : positive) (x0 : A) :
  SpecFloat.iter_pos f p x0 = Nat.iter (Pos.to_nat p) f x0.
Proof.
  revert x0. induction p as [p IH | p IH |]; intros x0;
    cbn [SpecFloat.iter_pos].
  - rewrite !IH. rewrite Pos2Nat.inj_xI.
    cbn [Nat.iter Nat.mul]. rewrite Nat.add_0_r.
    rewrite <- Nat.iter_add. rewrite <- Nat.iter_succ_r. reflexivity.
  - rewrite !IH. rewrite Pos2Nat.inj_xO.
    cbn [Nat.mul]. rewrite Nat.add_0_r. rewrite <- Nat.iter_add. reflexivity.
  - reflexivity.
Qed.

Lemma shr_1_spec (mm : Z) (r s : bool) :
  0 <= mm ->
  shr_1 {| shr_m := mm; shr_r := r; shr_s := s |}
  = {| shr_m := mm / 2; shr_r := Z.odd mm; shr_s := r || s |}.
Proof.
  intros Hm. rewrite <- Z.div2_div.
  destruct mm as [| [q | q |] |]; try lia; reflexivity.
Qed.

Lemma mod_pow2_split (mm j : Z) :
  0 <= j ->
  mm mod 2 ^ (j + 1)
  = 2 ^ j * (if Z.odd (mm / 2 ^ j) then 1 else 0) + mm mod 2 ^ j.
Proof.
  intros Hj. rewrite Z.pow_add_r by lia. change (2 ^ 1) with 2.
  pose proof (pow2_pos j Hj) as Hp.
  rewrite Z.rem_mul_r by lia. rewrite Zmod_odd. lia.
Qed.

Lemma shr_iter (mm : Z) (n : nat) :
  0 <= mm -> (1 <= n)%nat ->
  Nat.iter n shr_1 {| shr_m := mm; shr_r := false; shr_s := false |}
  = {| shr_m := mm / 2 ^ Z.of_nat n;
       shr_r := Z.odd (mm / 2 ^ (Z.of_nat n - 1));
       shr_s := negb (mm mod 2 ^ (Z.of_nat n - 1) =? 0) |}.
Proof.
  intros Hm Hn. induction n as [| n IH]; [lia |].
  destruct n as [| n].
  - cbn [Nat.iter nat_rect]. rewrite shr_1_spec by exact Hm.
    change (Z.of_nat 1 - 1) with 0. change (2 ^ 0) with 1.
    rewrite Z.div_1_r, Z.mod_1_r. reflexivity.
  - specialize (IH ltac:(lia)).
    change (Nat.iter (S (S n)) shr_1 ?r0)
      with (shr_1 (Nat.iter (S n) shr_1 r0)).
    rewrite IH. clear IH.
    set (j := Z.of_nat (S n)).
    assert (Hj : 1 <= j) by (unfold j; lia).
    replace (Z.of_nat (S (S n))) with (j + 1) by (unfold j; lia).
    replace (j + 1 - 1) with j by lia.
    pose proof (pow2_pos j ltac:(lia)) as Hp.
    pose proof (pow2_pos (j - 1) ltac:(lia)) as Hp1.
    rewrite shr_1_spec by (apply Z.div_pos; lia).
    f_equal.
    + rewrite Z.div_div by lia. rewrite Z.pow_add_r by lia. reflexivity.
    + pose proof (mod_pow2_split mm (j - 1) ltac:(lia)) as Hs.
      replace (j - 1 + 1) with j in Hs by lia.
      pose proof (Z.mod_pos_bound mm (2 ^ (j - 1)) Hp1) as Hb.
      rewrite Hs.
      destruct (Z.odd (mm / 2 ^ (j - 1))); cbn [orb].
      * symmetry. apply negb_true_iff. apply Z.eqb_neq. lia.
      * f_equal. f_equal. lia.
Qed.

Lemma shr_rne (mm : Z) (n : nat) :
  0 <= mm -> (1 <= n)%nat ->
  let R := Nat.iter n shr_1 {| shr_m := mm; shr_r := false; shr_s := false |}
  in shr_m R = mm / 2 ^ Z.of_nat n
     /\ round_nearest_even (shr_m R) (loc_of_shr_record R)
        = rne mm (Z.of_nat n).
Proof.
  intros Hm Hn R. unfold R. rewrite (shr_iter mm n Hm Hn).
  cbn [shr_m]. split; [reflexivity |].
  set (j := Z.of_nat n). assert (Hj : 1 <= j) by (unfold j; lia).
  pose proof (pow2_pos (j - 1) ltac:(lia)) as Hp1.
  pose proof (mod_pow2_split mm (j - 1) ltac:(lia)) as Hs.
  replace (j - 1 + 1) with j in Hs by lia.
  pose proof (Z.mod_pos_bound mm (2 ^ (j - 1)) Hp1) as Hb.
  assert (Hpow : 2 ^ j = 2 * 2 ^ (j - 1)).
  { replace j with (1 + (j - 1)) at 1 by lia.
    rewrite Z.pow_add_r by lia. reflexivity. }
  unfold rne. rewrite Hs, Hpow.
  destruct (Z.odd (mm / 2 ^ (j - 1))) eqn:Eodd;
    destruct (mm mod 2 ^ (j - 1) =? 0) eqn:Elow;
    cbn [negb loc_of_shr_record round_nearest_even];
    first [apply Z.eqb_eq in Elow | apply Z.eqb_neq in Elow].
  - (* tie *)
    destruct (Z.ltb_spec (2 * (2 ^ (j - 1) * 1 + mm mod 2 ^ (j - 1)))
                (2 * 2 ^ (j - 1))); [lia |].
    destruct (Z.ltb_spec (2 * 2 ^ (j - 1))
                (2 * (2 ^ (j - 1) * 1 + mm mod 2 ^ (j - 1)))); [lia |].
    reflexivity.
  - destruct (Z.ltb_spec (2 * (2 ^ (j - 1) * 1 + mm mod 2 ^ (j - 1)))
                (2 * 2 ^ (j - 1))); [lia |].
    destruct (Z.ltb_spec (2 * 2 ^ (j - 1))
                (2 * (2 ^ (j - 1) * 1 + mm mod 2 ^ (j - 1)))); [| lia].
    reflexivity.
  - destruct (Z.ltb_spec (2 * (2 ^ (j - 1) * 0 + mm mod 2 ^ (j - 1)))
                (2 * 2 ^ (j - 1))); [| lia].
    reflexivity.
  - destruct (Z.ltb_spec (2 * (2 ^ (j - 1) * 0 + mm mod 2 ^ (j - 1)))
                (2 * 2 ^ (j - 1))); [| lia].
    reflexivity.
Qed.

Lemma digits2_log2 (q : positive) :
  Zpos (digits2_pos q) = Z.log2 (Zpos q) + 1.
Proof.
  pose proof (digits2_bounds q) as [Hlo Hhi].
  assert (H : Z.log2 (Zpos q) = Zpos (digits2_pos q) - 1).
  { apply Z.log2_unique; [lia |].
    replace (Z.succ (Zpos (digits2_pos q) - 1)) with (Zpos (digits2_pos q))
      by lia.
    split; assumption. }
  lia.
Qed.

Lemma grid_scaled (q : positive) (k : Z) :
  0 <= k + scale ->
  grid (Zpos q * 2 ^ (k + scale))
  = fexp prec emax (Zpos (digits2_pos q) + k) + scale.
Proof.
  intros Hk. unfold grid, fexp, emin. change prec with 53. change emax with 1024.
  rewrite Z.log2_mul_pow2 by lia. rewrite digits2_log2. unfold scale. lia.
Qed.

Lemma rne_exact (q g : Z) : 0 <= g -> rne (q * 2 ^ g) g = q.
Proof.
  intros Hg. pose proof (pow2_pos g Hg) as Hp. unfold rne.
  rewrite Z.div_mul by lia. rewrite Z.mod_mul by lia.
  destruct (Z.ltb_spec (2 * 0) (2 ^ g)); [reflexivity | lia].
Qed.

Lemma rne_scale (mm n j : Z) :
  0 <= n -> 0 <= j -> rne (mm * 2 ^ j) (n + j) = rne mm n.
Proof.
  intros Hn Hj. unfold rne.
  pose proof (pow2_pos n Hn) as Hpn. pose proof (pow2_pos j Hj) as Hpj.
  rewrite Z.pow_add_r by lia.
  rewrite Z.div_mul_cancel_r by lia.
  rewrite Z.mul_mod_distr_r by lia.
  set (rho := mm mod 2 ^ n). set (P := 2 ^ j) in *. set (Q := 2 ^ n) in *.
  destruct (Z.ltb_spec (2 * (rho * P)) (Q * P));
    destruct (Z.ltb_spec (2 * rho) Q); try nia; try reflexivity.
  destruct (Z.ltb_spec (Q * P) (2 * (rho * P)));
    destruct (Z.ltb_spec Q (2 * rho)); try nia; reflexivity.
Qed.

(** What rounding does between two powers of two. *)
Lemma rne_bounds (w g : Z) :
  0 <= w -> 0 <= g ->
  w / 2 ^ g <= rne w g <= w / 2 ^ g + 1
  /\ (w mod 2 ^ g = 0 -> rne w g = w / 2 ^ g).
Proof.
  intros Hw Hg. pose proof (pow2_pos g Hg) as Hp. unfold rne.
  split.
  - destruct (2 * (w mod 2 ^ g) <? 2 ^ g); [lia |].
    destruct (2 ^ g <? 2 * (w mod 2 ^ g)); [lia |].
    destruct (Z.even (w / 2 ^ g)); lia.
  - intros ->. destruct (Z.ltb_spec (2 * 0) (2 ^ g)); [reflexivity | lia].
Qed.

Lemma pow2_split (a b : Z) : 0 <= a -> 0 <= b -> 2 ^ (a + b) = 2 ^ a * 2 ^ b.
Proof. intros. apply Z.pow_add_r; assumption. Qed.

Lemma rne_zero_shift (w : Z) : rne w 0 = w.
Proof.
  unfold rne. rewrite Z.pow_0_r, Z.mod_1_r, Z.div_1_r. reflexivity.
Qed.

Lemma shr_fexp_spec (mm e : Z) :
  0 <= mm ->
  let g := Z.max 0 (fexp prec emax (Zdigits2 mm + e) - e) in
  let S := shr_fexp prec emax mm e loc_Exact in
  snd S = e + g
  /\ shr_m (fst S) = mm / 2 ^ g
  /\ round_nearest_even (shr_m (fst S)) (loc_of_shr_record (fst S))
     = rne mm g.
Proof.
  intros Hm g S. unfold S, shr_fexp, shr, shr_record_of_loc.
  fold (fexp prec emax (Zdigits2 mm + e)).
  remember (fexp prec emax (Zdigits2 mm + e) - e) as n eqn:En.
  destruct n as [| p | p].
  - assert (g = 0) by (unfold g; lia). subst g.
    cbn [fst snd shr_m loc_of_shr_record shr_r shr_s round_nearest_even].
    rewrite H, rne_zero_shift, Z.pow_0_r, Z.div_1_r. repeat split; lia.
  - assert (Hg : g = Zpos p) by (unfold g; lia).
    cbn [fst snd]. rewrite iter_pos_nat.
    pose proof (shr_rne mm (Pos.to_nat p) Hm ltac:(lia)) as [H1 H2].
    rewrite positive_nat_Z in H1, H2. rewrite Hg.
    repeat split; assumption.
  - assert (g = 0) by (unfold g; lia). subst g.
    cbn [fst snd shr_m loc_of_shr_record shr_r shr_s round_nearest_even].
    rewrite H, rne_zero_shift, Z.pow_0_r, Z.div_1_r. repeat split; lia.
Qed.

Lemma binary_round_aux_unfold (sx : bool) (mm e : Z) :
  binary_round_aux prec emax sx mm e loc_Exact
  = let S1 := shr_fexp prec emax mm e loc_Exact in
    let S2 := shr_fexp prec emax
                (round_nearest_even (shr_m (fst S1)) (loc_of_shr_record (fst S1)))
                (snd S1) loc_Exact in
    match shr_m (fst S2) with
    | 0 => S754_zero sx
    | Zpos m => if snd S2 <=? emax - prec then S754_finite sx m (snd S2)
                else S754_infinity sx
    | Zneg _ => S754_nan
    end.
Proof.
  unfold binary_round_aux.
  destruct (shr_fexp prec emax mm e loc_Exact) as [mrs1 e1]. cbn [fst snd].
  destruct (shr_fexp prec emax _ e1 loc_Exact) as [mrs2 e2]. reflexivity.
Qed.

Lemma Zdigits2_small (v : Z) : 0 < v < 2 ^ 53 -> Zdigits2 v <= 53.
Proof.
  intros [Hlo Hhi]. destruct v as [| q | q]; try lia. cbn [Zdigits2].
  pose proof (digits2_bounds q) as [Hb _].
  destruct (Z_le_gt_dec (Zpos (digits2_pos q)) 53) as [| Hgt]; [assumption |].
  exfalso.
  assert (2 ^ 53 <= 2 ^ (Zpos (digits2_pos q) - 1)) by (apply pow2_le; lia).
  lia.
Qed.

Theorem round_aux_sval (sx : bool) (m : positive) (e : Z) :
  0 <= e + scale ->
  (fexp prec emax (Zpos (digits2_pos m) + e) <= e -> e <= 971) ->
  sval (binary_round_aux prec emax sx (Zpos m) e loc_Exact)
  = signed sx (cap (rz (Zpos m * 2 ^ (e + scale)))).
Proof.
  intros Hk He. rewrite binary_round_aux_unfold.
  set (d := Zpos (digits2_pos m)).
  set (t := fexp prec emax (d + e)).
  assert (Ht : t = Z.max (d + e - 53) (-1074)).
  { unfold t, fexp, emin. change prec with 53. change emax with 1024. lia. }
  change (t <= e -> e <= 971) in He.
  pose proof (digits2_bounds m) as [Hdlo Hdhi]. fold d in Hdlo, Hdhi.
  assert (Hd : 1 <= d) by (unfold d; lia).
  pose proof (shr_fexp_spec (Zpos m) e ltac:(lia)) as H1.
  cbn [Zdigits2] in H1. fold d in H1. fold t in H1.
  cbv zeta in H1. destruct H1 as (He1 & _ & Hm1).
  cbv zeta. rewrite Hm1, He1.
  set (g1 := Z.max 0 (t - e)) in *.
  set (m1 := rne (Zpos m) g1).
  set (e1 := e + g1).
  assert (Hg1 : 0 <= g1) by (unfold g1; lia).
  pose proof (pow2_pos g1 Hg1) as Hpg1.
  pose proof (rne_bounds (Zpos m) g1 ltac:(lia) Hg1) as [[Hr1 Hr2] _].
  fold m1 in Hr1, Hr2.
  assert (Hq0 : 0 <= Zpos m / 2 ^ g1) by (apply Z.div_pos; lia).
  (* the rounded significand fits in 53 bits, or is 2^53 *)
  assert (Hq53 : Zpos m / 2 ^ g1 < 2 ^ 53).
  { apply Z.div_lt_upper_bound; [lia |].
    rewrite <- pow2_split by lia.
    apply Z.lt_le_trans with (2 ^ d); [assumption |].
    apply pow2_le. unfold g1. lia. }
  (* the value on the grid *)
  assert (Hrz : rz (Zpos m * 2 ^ (e + scale)) = m1 * 2 ^ (e1 + scale)).
  { unfold rz. rewrite grid_scaled by assumption. fold d. fold t.
    destruct (Z_le_gt_dec e t) as [Hle | Hgt].
    - assert (g1 = t - e) by (unfold g1; lia).
      replace (t + scale) with (g1 + (e + scale)) by lia.
      rewrite rne_scale by lia. unfold e1.
      replace (e + g1 + scale) with (g1 + (e + scale)) by lia. reflexivity.
    - assert (Hg0 : g1 = 0) by (unfold g1; lia).
      unfold m1, e1. rewrite Hg0, rne_zero_shift, Z.add_0_r.
      replace (Zpos m * 2 ^ (e + scale))
        with (Zpos m * 2 ^ (e - t) * 2 ^ (t + scale)).
      + rewrite rne_exact by (unfold scale; lia).
        rewrite <- Z.mul_assoc, <- pow2_split by (unfold scale; lia).
        replace (e - t + (t + scale)) with (e + scale) by lia. reflexivity.
      + rewrite <- Z.mul_assoc, <- pow2_split by (unfold scale; lia).
        replace (e - t + (t + scale)) with (e + scale) by lia. reflexivity. }
  rewrite Hrz.
  pose proof (shr_fexp_spec m1 e1 ltac:(lia)) as H2. cbv zeta in H2.
  destruct H2 as (He2 & Hm2 & _). rewrite Hm2, He2. clear Hm2 He2.
  set (g2 := Z.max 0 (fexp prec emax (Zdigits2 m1 + e1) - e1)).
  assert (He1s : 0 <= e1 + scale) by (unfold e1; lia).
  pose proof (pow2_pos (e1 + scale) He1s) as Hpe1.
  assert (Hcases : m1 = 0 \/ 0 < m1 < 2 ^ 53 \/ m1 = 2 ^ 53) by lia.
  destruct Hcases as [Hz | [Hmid | Htop]].
  - (* rounds to zero *)
    rewrite Hz. rewrite Z.div_0_l by (apply Z.pow_nonzero; unfold g2; lia).
    cbn [sval]. unfold cap. rewrite Z.mul_0_l.
    destruct (Z.ltb_spec 0 (2 ^ (1024 + scale))) as [_ | Hbad].
    + destruct sx; reflexivity.
    + pose proof (pow2_pos (1024 + scale) ltac:(unfold scale; lia)). lia.
  - (* a significand of at most 53 bits *)
    pose proof (Zdigits2_small m1 Hmid) as Hdm.
    assert (Hg2 : g2 = 0).
    { unfold g2, fexp, emin, e1. change prec with 53. change emax with 1024.
      unfold g1. lia. }
    rewrite Hg2, Z.pow_0_r, Z.div_1_r, Z.add_0_r.
    destruct m1 as [| q | q] eqn:Eq1; try lia.
    change (emax - prec) with 971.
    destruct (Z.leb_spec e1 971) as [Hfin | Hover].
    + cbn [sval]. f_equal. unfold cap.
      destruct (Z.ltb_spec (Zpos q * 2 ^ (e1 + scale)) (2 ^ (1024 + scale)))
        as [_ | Hbad]; [reflexivity |].
      exfalso.
      assert (2 ^ (1024 + scale) = 2 ^ 53 * 2 ^ (971 + scale))
        by (rewrite <- pow2_split by (unfold scale; lia); f_equal).
      assert (2 ^ (e1 + scale) <= 2 ^ (971 + scale))
        by (apply pow2_le; lia).
      assert (Zpos q * 2 ^ (e1 + scale) < 2 ^ 53 * 2 ^ (971 + scale)).
      { apply Z.lt_le_trans with (2 ^ 53 * 2 ^ (e1 + scale)).
        - apply Z.mul_lt_mono_pos_r; lia.
        - apply Z.mul_le_mono_nonneg_l; lia. }
      lia.
    + cbn [sval]. f_equal. unfold cap.
      destruct (Z.ltb_spec (Zpos q * 2 ^ (e1 + scale)) (2 ^ (1024 + scale)))
        as [Hbad | _]; [| reflexivity].
      exfalso.
      (* here the shift is the normal one and the significand has 53 bits *)
      assert (Hg1e : g1 = d - 53) by (unfold e1, g1 in *; lia).
      assert (Hq52 : 2 ^ 52 <= Zpos m / 2 ^ g1).
      { apply Z.div_le_lower_bound; [lia |].
        rewrite <- pow2_split by lia.
        replace (g1 + 52) with (d - 1) by lia. assumption. }
      assert (2 ^ (1024 + scale) = 2 ^ 52 * 2 ^ (972 + scale))
        by (rewrite <- pow2_split by (unfold scale; lia); f_equal).
      assert (2 ^ (972 + scale) <= 2 ^ (e1 + scale))
        by (apply pow2_le; unfold scale; lia).
      assert (2 ^ 52 * 2 ^ (972 + scale) <= Zpos q * 2 ^ (e1 + scale)).
      { apply Z.le_trans with (2 ^ 52 * 2 ^ (e1 + scale)).
        - apply Z.mul_le_mono_nonneg_l; lia.
        - apply Z.mul_le_mono_nonneg_r; lia. }
      lia.
  - (* the carry: 2^53 is renormalised to 2^52 one exponent up *)
    assert (Hg1e : e1 = t).
    { unfold e1, g1. destruct (Z_le_gt_dec e t); [lia |].
      exfalso. assert (g1 = 0) by (unfold g1; lia).
      unfold m1 in Htop. rewrite H, rne_zero_shift in Htop.
      assert (d <= 52) by lia.
      assert (2 ^ d <= 2 ^ 52) by (apply pow2_le; lia).
      assert (2 ^ 52 < 2 ^ 53) by (apply pow2_lt; lia). lia. }
    assert (Hg2 : g2 = 1).
    { unfold g2. rewrite Htop. change (Zdigits2 (2 ^ 53)) with 54.
      unfold fexp, emin. change prec with 53. change emax with 1024. lia. }
    rewrite Hg2, Htop. change (2 ^ 53 / 2 ^ 1) with (Zpos (2 ^ 52)).
    change (emax - prec) with 971.
    assert (Hval : 2 ^ 53 * 2 ^ (e1 + scale)
                   = Zpos (2 ^ 52) * 2 ^ (e1 + 1 + scale)).
    { replace (e1 + 1 + scale) with (1 + (e1 + scale)) by lia.
      rewrite (pow2_split 1 (e1 + scale)) by lia. change (2 ^ 1) with 2.
      change (2 ^ 53) with (Zpos (2 ^ 52) * 2). lia. }
    destruct (Z.leb_spec (e1 + 1) 971) as [Hfin | Hover].
    + cbn [sval]. f_equal. rewrite Hval. unfold cap.
      destruct (Z.ltb_spec (Zpos (2 ^ 52) * 2 ^ (e1 + 1 + scale))
                  (2 ^ (1024 + scale))) as [_ | Hbad]; [reflexivity |].
      exfalso.
      assert (2 ^ (1024 + scale) = 2 * (2 ^ 52 * 2 ^ (971 + scale))).
      { replace (1024 + scale) with (1 + (52 + (971 + scale))) by lia.
        rewrite !pow2_split by (unfold scale; lia). reflexivity. }
      assert (2 ^ (e1 + 1 + scale) <= 2 ^ (971 + scale))
        by (apply pow2_le; lia).
      pose proof (pow2_pos (971 + scale) ltac:(unfold scale; lia)).
      change (Zpos (2 ^ 52)) with (2 ^ 52) in Hbad.
      assert (2 ^ 52 * 2 ^ (e1 + 1 + scale) <= 2 ^ 52 * 2 ^ (971 + scale))
        by (apply Z.mul_le_mono_nonneg_l; lia).
      assert (0 < 2 ^ 52 * 2 ^ (971 + scale))
        by (apply Z.mul_pos_pos; lia).
      lia.
    + cbn [sval]. f_equal. rewrite Hval. unfold cap.
      destruct (Z.ltb_spec (Zpos (2 ^ 52) * 2 ^ (e1 + 1 + scale))
                  (2 ^ (1024 + scale))) as [Hbad | _]; [| reflexivity].
      exfalso.
      assert (2 ^ (1024 + scale) = 2 ^ 52 * 2 ^ (972 + scale))
        by (rewrite <- pow2_split by (unfold scale; lia); f_equal).
      assert (2 ^ (972 + scale) <= 2 ^ (e1 + 1 + scale))
        by (apply pow2_le; unfold scale; lia).
      change (Zpos (2 ^ 52)) with (2 ^ 52) in Hbad.
      assert (2 ^ 52 * 2 ^ (972 + scale) <= 2 ^ 52 * 2 ^ (e1 + 1 + scale))
        by (apply Z.mul_le_mono_nonneg_l; lia).
      lia.
Qed.

Lemma rne_nonneg (w g : Z) : 0 <= w -> 0 <= g -> 0 <= rne w g.
Proof.
  intros Hw Hg. pose proof (rne_bounds w g Hw Hg) as [[H _] _].
  pose proof (pow2_pos g Hg).
  assert (0 <= w / 2 ^ g) by (apply Z.div_pos; lia). lia.
Qed.

Lemma rne_mono (w1 w2 g : Z) :
  0 <= w1 <= w2 -> 0 <= g -> rne w1 g <= rne w2 g.
Proof.
  intros [H1 H12] Hg. pose proof (pow2_pos g Hg) as Hp.
  assert (Hq : w1 / 2 ^ g <= w2 / 2 ^ g) by (apply Z.div_le_mono; lia).
  destruct (Z.eq_dec (w1 / 2 ^ g) (w2 / 2 ^ g)) as [Heq | Hne].
  - assert (Hrho : w1 mod 2 ^ g <= w2 mod 2 ^ g).
    { rewrite !Z.mod_eq by lia. rewrite Heq. lia. }
    unfold rne. rewrite Heq.
    destruct (Z.ltb_spec (2 * (w1 mod 2 ^ g)) (2 ^ g));
      destruct (Z.ltb_spec (2 * (w2 mod 2 ^ g)) (2 ^ g)); try lia;
      destruct (Z.ltb_spec (2 ^ g) (2 * (w1 mod 2 ^ g)));
      destruct (Z.ltb_spec (2 ^ g) (2 * (w2 mod 2 ^ g))); try lia;
      destruct (Z.even (w2 / 2 ^ g)); lia.
  - pose proof (rne_bounds w1 g H1 Hg) as [[_ Hu] _].
    pose proof (rne_bounds w2 g ltac:(lia) Hg) as [[Hl _] _]. lia.
Qed.

Lemma grid_nonneg (w : Z) : 0 <= grid w.
Proof. unfold grid, scale. lia. Qed.

Lemma rz_nonneg (w : Z) : 0 <= w -> 0 <= rz w.
Proof.
  intros Hw. unfold rz. apply Z.mul_nonneg_nonneg.
  - apply rne_nonneg; [assumption | apply grid_nonneg].
  - pose proof (pow2_pos (grid w) (grid_nonneg w)). lia.
Qed.

Lemma rz_zero : rz 0 = 0.
Proof. reflexivity. Qed.

Lemma rz_mono (w1 w2 : Z) : 0 <= w1 <= w2 -> rz w1 <= rz w2.
Proof.
  intros [H1 H12].
  destruct (Z.eq_dec w1 0) as [-> | Hnz].
  { rewrite rz_zero. apply rz_nonneg. lia. }
  assert (Hpos1 : 0 < w1) by lia. assert (Hpos2 : 0 < w2) by lia.
  pose proof (Z.log2_le_mono w1 w2 H12) as Hlog.
  pose proof (Z.log2_nonneg w1) as Hl1.
  destruct (Z.log2_spec w1 Hpos1) as [Hlo1 Hhi1].
  destruct (Z.log2_spec w2 Hpos2) as [Hlo2 Hhi2].
  destruct (Z.eq_dec (grid w1) (grid w2)) as [Heq | Hne].
  - unfold rz. rewrite Heq.
    apply Z.mul_le_mono_nonneg_r.
    + pose proof (pow2_pos (grid w2) (grid_nonneg w2)). lia.
    + apply rne_mono; [lia | apply grid_nonneg].
  - (* the two values lie in different binades *)
    set (g1 := grid w1). set (g2 := grid w2).
    assert (Hg1 : 0 <= g1) by apply grid_nonneg.
    assert (Hg12 : g1 < g2) by (unfold g1, g2, grid in *; lia).
    assert (Hg2 : g2 = Z.log2 w2 - 52) by (unfold g1, g2, grid in *; lia).
    set (B := Z.max (Z.log2 w1 + 1) g1).
    assert (HB : B <= Z.log2 w2) by (unfold B, g1, g2, grid in *; lia).
    apply Z.le_trans with (2 ^ B); [| apply Z.le_trans with (2 ^ Z.log2 w2)].
    + unfold rz. fold g1.
      pose proof (pow2_pos g1 Hg1) as Hp.
      assert (HBs : 2 ^ B = 2 ^ (B - g1) * 2 ^ g1).
      { rewrite <- pow2_split by (unfold B; lia). f_equal. lia. }
      rewrite HBs. apply Z.mul_le_mono_nonneg_r; [lia |].
      pose proof (rne_bounds w1 g1 H1 Hg1) as [[_ Hu] _].
      assert (w1 / 2 ^ g1 < 2 ^ (B - g1)).
      { apply Z.div_lt_upper_bound; [lia |].
        rewrite Z.mul_comm, <- HBs.
        apply Z.lt_le_trans with (2 ^ Z.succ (Z.log2 w1)); [assumption |].
        apply pow2_le. unfold B. lia. }
      lia.
    + apply pow2_le. unfold B in *. lia.
    + unfold rz. fold g2.
      assert (Hg2n : 0 <= g2) by apply grid_nonneg.
      pose proof (pow2_pos g2 Hg2n) as Hp.
      assert (HLs : 2 ^ Z.log2 w2 = 2 ^ 52 * 2 ^ g2).
      { rewrite <- pow2_split by lia. f_equal. lia. }
      rewrite HLs. apply Z.mul_le_mono_nonneg_r; [lia |].
      pose proof (rne_bounds w2 g2 ltac:(lia) Hg2n) as [[Hl _] _].
      assert (2 ^ 52 <= w2 / 2 ^ g2).
      { apply Z.div_le_lower_bound; [lia |].
        rewrite Z.mul_comm, <- HLs. assumption. }
      lia.
Qed.

Lemma cap_mono (v1 v2 : Z) : v1 <= v2 -> cap v1 <= cap v2.
Proof.
  intros H. unfold cap.
  assert (2 ^ (1024 + scale) <= top) by (apply pow2_le; unfold scale; lia).
  destruct (Z.ltb_spec v1 (2 ^ (1024 + scale)));
    destruct (Z.ltb_spec v2 (2 ^ (1024 + scale))); lia.
Qed.

Lemma cap_nonneg (v : Z) : 0 <= v -> 0 <= cap v.
Proof.
  intros H. unfold cap. pose proof (pow2_pos 5000 ltac:(lia)). fold top in *.
  destruct (v <? 2 ^ (1024 + scale)); lia.
Qed.

Lemma rzs_mono (v1 v2 : Z) : v1 <= v2 -> rzs v1 <= rzs v2.
Proof.
  intros H. unfold rzs.
  destruct (Z.ltb_spec v1 0); destruct (Z.ltb_spec v2 0); try lia.
  - apply Z.opp_le_mono. rewrite !Z.opp_involutive.
    apply cap_mono, rz_mono. lia.
  - pose proof (cap_nonneg (rz (- v1)) (rz_nonneg (- v1) ltac:(lia))).
    pose proof (cap_nonneg (rz v2) (rz_nonneg v2 ltac:(lia))). lia.
  - apply cap_mono, rz_mono. lia.
Qed.

Lemma rzs_signed (s : bool) (w : Z) :
  0 <= w -> signed s (cap (rz w)) = rzs (signed s w).
Proof.
  intros Hw. unfold rzs, signed. destruct s.
  - destruct (Z.ltb_spec (- w) 0).
    + rewrite Z.opp_involutive. reflexivity.
    + assert (w = 0) by lia. subst w. reflexivity.
  - destruct (Z.ltb_spec w 0); [lia | reflexivity].
Qed.

End Rounding.

Section RoundingOps.

Local Open Scope Z_scope.

Lemma top_pos : 0 < top.
Proof. apply pow2_pos. lia. Qed.

Lemma top_above : 2 ^ (1024 + scale) < top.
Proof. apply pow2_lt. unfold scale. lia. Qed.

Lemma shift_val (m : positive) (k : positive) :
  Zpos (Pos.iter xO m k) = Zpos m * 2 ^ Zpos k.
Proof.
  rewrite Pos2Nat.inj_iter.
  rewrite <- (positive_nat_Z k).
  induction (Pos.to_nat k) as [| n IH].
  - cbn. lia.
  - rewrite Nat2Z.inj_succ, Z.pow_succ_r by lia.
    cbn [nat_rect].
    rewrite (Pos2Z.inj_xO (nat_rect _ m _ n)), IH. lia.
Qed.

Lemma shl_align_val (m : positive) (e e' : Z) :
  snd (shl_align m e e') = Z.min e e'
  /\ Zpos (fst (shl_align m e e')) = Zpos m * 2 ^ (e - Z.min e e').
Proof.
  unfold shl_align. destruct (e' - e) as [| k | k] eqn:E; cbn [fst snd].
  - replace (Z.min e e') with e by lia. rewrite Z.sub_diag. cbn. lia.
  - replace (Z.min e e') with e by lia. rewrite Z.sub_diag. cbn. lia.
  - replace (Z.min e e') with e' by lia. rewrite shift_val.
    replace (e - e') with (Zpos k) by lia. split; reflexivity.
Qed.

Lemma round_aux_number (sx : bool) (m : positive) (e : Z) :
  binary_round_aux prec emax sx (Zpos m) e loc_Exact <> S754_nan.
Proof.
  rewrite binary_round_aux_unfold. cbv zeta.
  pose proof (shr_fexp_spec (Zpos m) e ltac:(lia)) as H1. cbv zeta in H1.
  destruct H1 as (_ & _ & Hm1). rewrite Hm1.
  set (g1 := Z.max 0 _).
  assert (Hm : 0 <= rne (Zpos m) g1) by (apply rne_nonneg; unfold g1; lia).
  pose proof (shr_fexp_spec (rne (Zpos m) g1)
                (snd (shr_fexp prec emax (Zpos m) e loc_Exact)) Hm) as H2.
  cbv zeta in H2. destruct H2 as (_ & Hm2 & _). rewrite Hm2.
  set (g2 := Z.max 0 _).
  assert (0 <= rne (Zpos m) g1 / 2 ^ g2).
  { apply Z.div_pos; [assumption | apply pow2_pos; unfold g2; lia]. }
  destruct (rne (Zpos m) g1 / 2 ^ g2) as [| q | q]; try lia.
  - discriminate.
  - destruct (_ <=? _); discriminate.
Qed.

Theorem round_sval (sx : bool) (m : positive) (e : Z) :
  0 <= e + scale -> e <= 971 ->
  sval (binary_round prec emax sx m e)
  = signed sx (cap (rz (Zpos m * 2 ^ (e + scale))))
  /\ binary_round prec emax sx m e <> S754_nan.
Proof.
  intros Hk He. unfold binary_round.
  set (t := fexp prec emax (Zpos (digits2_pos m) + e)).
  assert (Ht : -1074 <= t).
  { unfold t, fexp, emin. change prec with 53. change emax with 1024. lia. }
  pose proof (shl_align_val m e t) as [Hs Hf].
  destruct (shl_align m e t) as [mz ez]. cbn [fst snd] in Hs, Hf.
  split; [| apply round_aux_number].
  rewrite round_aux_sval.
  - f_equal. f_equal. f_equal. rewrite Hf, Hs, <- Z.mul_assoc.
    rewrite <- pow2_split by (unfold scale in *; lia).
    replace (e - Z.min e t + (Z.min e t + scale)) with (e + scale) by lia.
    reflexivity.
  - rewrite Hs. unfold scale in *. lia.
  - intros _. lia.
Qed.


Lemma normalize_sval (M e : Z) (sz : bool) :
  0 <= e + scale -> e <= 971 ->
  sval (binary_normalize prec emax M e sz) = rzs (M * 2 ^ (e + scale))
  /\ binary_normalize prec emax M e sz <> S754_nan.
Proof.
  intros Hk He. pose proof (pow2_pos (e + scale) Hk) as Hp.
  destruct M as [| m | m]; cbn [binary_normalize].
  - split; [reflexivity | discriminate].
  - destruct (round_sval false m e Hk He) as [Hv Hn]. split; [| exact Hn].
    rewrite Hv. apply rzs_signed. lia.
  - destruct (round_sval true m e Hk He) as [Hv Hn]. split; [| exact Hn].
    rewrite Hv. rewrite rzs_signed by lia. f_equal.
    cbn [signed]. rewrite <- Z.mul_opp_l. reflexivity.
Qed.

(** A valid double is left as it is by the rounding. *)
Lemma rz_valid (s : bool) (m : positive) (e : Z) :
  valid_binary (S754_finite s m e) = true ->
  cap (rz (Zpos m * 2 ^ (e + scale))) = Zpos m * 2 ^ (e + scale).
Proof.
  intros Hv.
  destruct (valid_finite s m e Hv) as (He & Hd & Hn).
  destruct (valid_finite_val s m e Hv) as (_ & _ & Hup).
  assert (Hc : fexp prec emax (Zpos (digits2_pos m) + e) = e).
  { unfold fexp, emin. change prec with 53. change emax with 1024. lia. }
  assert (Hrz : rz (Zpos m * 2 ^ (e + scale)) = Zpos m * 2 ^ (e + scale)).
  { unfold rz. rewrite grid_scaled by (unfold scale; lia). rewrite Hc.
    rewrite rne_exact by (unfold scale; lia). reflexivity. }
  rewrite Hrz. unfold cap.
  destruct (Z.ltb_spec (Zpos m * 2 ^ (e + scale)) (2 ^ (1024 + scale)))
    as [_ | Hbad]; [reflexivity |].
  exfalso.
  assert (2 ^ (53 + e + scale) <= 2 ^ (1024 + scale))
    by (apply pow2_le; unfold scale; lia).
  lia.
Qed.

Lemma rzs_valid (f : spec_float) :
  valid_binary f = true ->
  match f with S754_finite _ _ _ | S754_zero _ => True | _ => False end ->
  rzs (sval f) = sval f.
Proof.
  intros Hv Hf. destruct f as [s | s | | s m e]; try contradiction.
  - reflexivity.
  - cbn [sval]. destruct (valid_finite_val s m e Hv) as ((Hp & _) & _).
    rewrite <- rzs_signed by lia. rewrite (rz_valid s m e Hv). reflexivity.
Qed.

Lemma rz_pow2 (k : Z) : scale - 1074 + 52 <= k -> rz (2 ^ k) = 2 ^ k.
Proof.
  intros Hk. unfold rz, grid. rewrite Z.log2_pow2 by (unfold scale in *; lia).
  replace (Z.max (k + 1 - 53) (scale - 1074)) with (k - 52) by lia.
  replace (2 ^ k) with (2 ^ 52 * 2 ^ (k - 52)) at 1.
  - rewrite rne_exact by (unfold scale in *; lia).
    rewrite <- pow2_split by (unfold scale in *; lia). f_equal. lia.
  - rewrite <- pow2_split by (unfold scale in *; lia). f_equal. lia.
Qed.

(** Beyond the largest double everything rounds to infinity. *)
Lemma cap_rz_big (w : Z) : 2 ^ (1024 + scale) <= w -> cap (rz w) = top.
Proof.
  intros Hw.
  assert (H : 2 ^ (1024 + scale) <= rz w).
  { rewrite <- (rz_pow2 (1024 + scale)) by (unfold scale; lia).
    apply rz_mono. split; [| assumption].
    pose proof (pow2_pos (1024 + scale) ltac:(unfold scale; lia)). lia. }
  unfold cap. destruct (Z.ltb_spec (rz w) (2 ^ (1024 + scale))); [lia |].
  reflexivity.
Qed.

Lemma rzs_big (s : bool) (w : Z) :
  2 ^ (1024 + scale) <= w -> rzs (signed s w) = signed s top.
Proof.
  intros Hw.
  pose proof (pow2_pos (1024 + scale) ltac:(unfold scale; lia)).
  rewrite <- rzs_signed by lia. rewrite cap_rz_big by assumption.
  reflexivity.
Qed.

Lemma cond_Zopp_signed (s : bool) (v : Z) : cond_Zopp s v = signed s v.
Proof. destruct s; reflexivity. Qed.

Lemma signed_scale (s : bool) (m a b : Z) :
  0 <= a -> 0 <= b ->
  signed s (m * 2 ^ a) * 2 ^ b = signed s (m * 2 ^ (a + b)).
Proof.
  intros Ha Hb. rewrite pow2_split by assumption.
  destruct s; cbn [signed]; lia.
Qed.

Lemma aligned_val (s : bool) (m : positive) (e ez : Z) :
  - scale <= ez <= e ->
  cond_Zopp s (Zpos (fst (shl_align m e ez))) * 2 ^ (ez + scale)
  = signed s (Zpos m * 2 ^ (e + scale)).
Proof.
  intros H. destruct (shl_align_val m e ez) as [_ Hf].
  rewrite cond_Zopp_signed, Hf.
  replace (Z.min e ez) with ez by lia.
  rewrite signed_scale by lia. do 2 f_equal. f_equal. lia.
Qed.

Lemma add_finite_sval (sx sy : bool) (mx my : positive) (ex ey : Z) :
  -1074 <= ex <= 971 -> -1074 <= ey <= 971 ->
  sval (SFadd prec emax (S754_finite sx mx ex) (S754_finite sy my ey))
  = rzs (sval (S754_finite sx mx ex) + sval (S754_finite sy my ey))
  /\ SFadd prec emax (S754_finite sx mx ex) (S754_finite sy my ey)
     <> S754_nan.
Proof.
  intros Hx Hy. cbn [SFadd sval]. cbv zeta.
  change (IntDef.Z.min ex ey) with (Z.min ex ey).
  set (ez := Z.min ex ey).
  destruct (normalize_sval
              (cond_Zopp sx (Zpos (fst (shl_align mx ex ez)))
               + cond_Zopp sy (Zpos (fst (shl_align my ey ez)))) ez false)
    as [Hv Hn]; try (unfold ez, scale; lia).
  split; [| exact Hn]. rewrite Hv. f_equal.
  rewrite Z.mul_add_distr_r.
  rewrite !aligned_val by (unfold ez, scale; lia). reflexivity.
Qed.

Lemma sub_finite_sval (sx sy : bool) (mx my : positive) (ex ey : Z) :
  -1074 <= ex <= 971 -> -1074 <= ey <= 971 ->
  sval (SFsub prec emax (S754_finite sx mx ex) (S754_finite sy my ey))
  = rzs (sval (S754_finite sx mx ex) - sval (S754_finite sy my ey))
  /\ SFsub prec emax (S754_finite sx mx ex) (S754_finite sy my ey)
     <> S754_nan.
Proof.
  intros Hx Hy. cbn [SFsub sval]. cbv zeta.
  change (IntDef.Z.min ex ey) with (Z.min ex ey).
  set (ez := Z.min ex ey).
  destruct (normalize_sval
              (cond_Zopp sx (Zpos (fst (shl_align mx ex ez)))
               - cond_Zopp sy (Zpos (fst (shl_align my ey ez)))) ez false)
    as [Hv Hn]; try (unfold ez, scale; lia).
  split; [| exact Hn]. rewrite Hv. f_equal.
  rewrite Z.mul_sub_distr_r.
  rewrite !aligned_val by (unfold ez, scale; lia). reflexivity.
Qed.

Lemma signed_mul (s1 s2 : bool) (a b : Z) :
  signed s1 a * signed s2 b = signed (xorb s1 s2) (a * b).
Proof. destruct s1, s2; cbn [signed xorb]; lia. Qed.

Lemma signed_div (s : bool) (a k : Z) :
  0 <= k -> signed s (a * 2 ^ k) / 2 ^ k = signed s a.
Proof.
  intros Hk. pose proof (pow2_pos k Hk).
  destruct s; cbn [signed].
  - rewrite <- Z.mul_opp_l. apply Z.div_mul. lia.
  - apply Z.div_mul. lia.
Qed.

Lemma mul_finite_sval (sx sy : bool) (mx my : positive) (ex ey : Z) :
  valid_binary (S754_finite sx mx ex) = true ->
  valid_binary (S754_finite sy my ey) = true ->
  sval (SFmul prec emax (S754_finite sx mx ex) (S754_finite sy my ey))
  = rzs (sval (S754_finite sx mx ex) * sval (S754_finite sy my ey)
         / 2 ^ scale)
  /\ SFmul prec emax (S754_finite sx mx ex) (S754_finite sy my ey)
     <> S754_nan.
Proof.
  intros Vx Vy.
  destruct (valid_finite sx mx ex Vx) as (Hex & Hdx & Hnx).
  destruct (valid_finite sy my ey Vy) as (Hey & Hdy & Hny).
  cbn [SFmul sval]. split; [| apply round_aux_number].
  rewrite round_aux_sval.
  - rewrite signed_mul.
    replace (Zpos mx * 2 ^ (ex + scale) * (Zpos my * 2 ^ (ey + scale)))
      with (Zpos (mx * my) * 2 ^ (ex + ey + scale) * 2 ^ scale).
    + rewrite signed_div by (unfold scale; lia).
      apply rzs_signed.
      pose proof (pow2_pos (ex + ey + scale) ltac:(unfold scale; lia)). lia.
    + rewrite Pos2Z.inj_mul, <- Z.mul_assoc.
      rewrite <- pow2_split by (unfold scale; lia).
      replace (ex + ey + scale + scale) with ((ex + scale) + (ey + scale))
        by lia.
      rewrite pow2_split by (unfold scale; lia). lia.
  - unfold scale. lia.
  - (* no shift only if one factor is subnormal *)
    unfold fexp, emin. change prec with 53. change emax with 1024.
    intros Hsh.
    destruct (Z_le_gt_dec ex (-1074)); [lia |].
    destruct (Z_le_gt_dec ey (-1074)); [lia |].
    exfalso.
    pose proof (digits2_bounds mx) as [Hlx _].
    pose proof (digits2_bounds my) as [Hly _].
    pose proof (digits2_bounds (mx * my)) as [_ Hhp].
    rewrite Hnx in Hlx by lia. rewrite Hny in Hly by lia.
    change (53 - 1) with 52 in Hlx, Hly.
    assert (Hd : Zpos (digits2_pos (mx * my)) <= 53) by lia.
    assert (2 ^ Zpos (digits2_pos (mx * my)) <= 2 ^ 53)
      by (apply pow2_le; lia).
    rewrite Pos2Z.inj_mul in Hhp.
    assert (2 ^ 52 * 2 ^ 52 <= Zpos mx * Zpos my)
      by (apply Z.mul_le_mono_nonneg; lia).
    assert (2 ^ 53 < 2 ^ 52 * 2 ^ 52) by reflexivity.
    lia.
Qed.

Lemma top_split : top = 2 ^ 2800 * 2 ^ scale.
Proof. reflexivity. Qed.

Lemma top_far : 2 ^ 4000 + 2 ^ (1024 + scale) <= top.
Proof.
  unfold top, scale.
  replace (2 ^ 5000) with (2 ^ 1000 * 2 ^ 4000)
    by (rewrite <- pow2_split by lia; reflexivity).
  assert (2 ^ (1024 + 2200) <= 2 ^ 4000) by (apply pow2_le; lia).
  assert (2 <= 2 ^ 1000) by (apply (pow2_le 1 1000); lia).
  pose proof (pow2_pos 4000 ltac:(lia)). nia.
Qed.

Lemma rzs_top (s : bool) : rzs (signed s top) = signed s top.
Proof. refine (rzs_big s top _). pose proof top_above. lia. Qed.

(** Infinity plus or minus something finite. *)
Lemma rzs_top_plus (s : bool) (v : Z) :
  - 2 ^ 4000 <= v <= 2 ^ 4000 -> rzs (signed s top + v) = signed s top.
Proof.
  intros Hv. pose proof top_far.
  destruct s; cbn [signed].
  - replace (- top + v) with (signed true (top - v)) by (cbn [signed]; lia).
    refine (rzs_big true (top - v) _). lia.
  - refine (rzs_big false (top + v) _). lia.
Qed.

Lemma rzs_quot_big (s : bool) (a : Z) :
  2 ^ (1024 + scale) <= a ->
  rzs (signed s (a * 2 ^ scale) / 2 ^ scale) = signed s top.
Proof.
  intros Ha. rewrite signed_div by (unfold scale; lia).
  apply rzs_big. exact Ha.
Qed.

Lemma sval_finite_bound (s : bool) (m : positive) (e : Z) :
  valid_binary (S754_finite s m e) = true ->
  - 2 ^ 4000 <= sval (S754_finite s m e) <= 2 ^ 4000.
Proof.
  intros Hv. destruct (valid_finite_val s m e Hv) as ((Hp & Hb) & _).
  cbn [sval]. destruct s; cbn [signed]; lia.
Qed.

Theorem add_sval (x y : spec_float) :
  valid_binary x = true -> valid_binary y = true ->
  SFadd prec emax x y <> S754_nan ->
  sval (SFadd prec emax x y) = rzs (sval x + sval y).
Proof.
  intros Vx Vy Hn.
  destruct x as [sx | sx | | sx mx ex]; destruct y as [sy | sy | | sy my ey];
    try (exfalso; apply Hn; reflexivity).
  - destruct sx, sy; reflexivity.
  - cbn [SFadd sval]. rewrite Z.add_0_l. symmetry. apply rzs_top.
  - cbn [SFadd]. rewrite (Z.add_0_l (sval _)). symmetry.
    apply rzs_valid; [assumption | exact I].
  - cbn [SFadd sval]. rewrite Z.add_0_r.
    cbn [SFadd] in Hn. destruct sx; symmetry; apply rzs_top.
  - cbn [SFadd sval] in *.
    destruct sx, sy; try (exfalso; apply Hn; reflexivity);
      cbn [signed]; symmetry.
    + replace (- top + - top) with (signed true (top + top))
        by (cbn [signed]; lia).
      refine (rzs_big true (top + top) _). pose proof top_above.
      pose proof top_pos. lia.
    + refine (rzs_big false (top + top) _). pose proof top_above.
      pose proof top_pos. lia.
  - cbn [SFadd]. change (sval (S754_infinity sx)) with (signed sx top).
    symmetry. apply rzs_top_plus. apply sval_finite_bound. assumption.
  - cbn [SFadd]. change (sval (S754_zero sy)) with 0.
    rewrite Z.add_0_r. symmetry.
    apply rzs_valid; [assumption | exact I].
  - cbn [SFadd]. change (sval (S754_infinity sy)) with (signed sy top).
    rewrite Z.add_comm. symmetry.
    apply rzs_top_plus. apply sval_finite_bound. assumption.
  - destruct (valid_finite sx mx ex Vx) as (Hex & _).
    destruct (valid_finite sy my ey Vy) as (Hey & _).
    apply add_finite_sval; assumption.
Qed.

Theorem sub_sval (x y : spec_float) :
  valid_binary x = true -> valid_binary y = true ->
  SFsub prec emax x y <> S754_nan ->
  sval (SFsub prec emax x y) = rzs (sval x - sval y).
Proof.
  intros Vx Vy Hn.
  destruct x as [sx | sx | | sx mx ex]; destruct y as [sy | sy | | sy my ey];
    try (exfalso; apply Hn; reflexivity).
  - destruct sx, sy; reflexivity.
  - cbn [SFsub sval]. rewrite Z.sub_0_l.
    replace (- signed sy top) with (signed (negb sy) top)
      by (destruct sy; cbn [signed negb]; lia).
    symmetry. apply rzs_top.
  - cbn [SFsub]. rewrite (Z.sub_0_l (sval _)).
    replace (- sval (S754_finite sy my ey))
      with (sval (S754_finite (negb sy) my ey))
      by (cbn [sval]; destruct sy; cbn [signed negb]; lia).
    symmetry. apply rzs_valid; [exact Vy | exact I].
  - cbn [SFsub sval]. rewrite Z.sub_0_r. symmetry; apply rzs_top.
  - cbn [SFsub sval] in *.
    destruct sx, sy; try (exfalso; apply Hn; reflexivity);
      cbn [signed]; symmetry.
    + replace (- top - top) with (signed true (top + top))
        by (cbn [signed]; lia).
      refine (rzs_big true (top + top) _). pose proof top_above.
      pose proof top_pos. lia.
    + replace (top - - top) with (top + top) by lia.
      refine (rzs_big false (top + top) _). pose proof top_above.
      pose proof top_pos. lia.
  - cbn [SFsub]. change (sval (S754_infinity sx)) with (signed sx top).
    symmetry.
    replace (signed sx top - sval (S754_finite sy my ey))
      with (signed sx top + - sval (S754_finite sy my ey)) by lia.
    apply rzs_top_plus.
    pose proof (sval_finite_bound sy my ey Vy). lia.
  - cbn [SFsub]. change (sval (S754_zero sy)) with 0.
    rewrite Z.sub_0_r. symmetry.
    apply rzs_valid; [assumption | exact I].
  - cbn [SFsub]. change (sval (S754_infinity sy)) with (signed sy top).
    change (sval (S754_infinity (negb sy))) with (signed (negb sy) top).
    replace (sval (S754_finite sx mx ex) - signed sy top)
      with (signed (negb sy) top + sval (S754_finite sx mx ex))
      by (destruct sy; cbn [signed negb]; lia).
    symmetry. apply rzs_top_plus. apply sval_finite_bound. assumption.
  - destruct (valid_finite sx mx ex Vx) as (Hex & _).
    destruct (valid_finite sy my ey Vy) as (Hey & _).
    apply sub_finite_sval; assumption.
Qed.

Lemma rzs_top_times (s1 s2 : bool) (v : Z) :
  2 ^ (scale - 1074) <= v ->
  rzs (signed s1 top * signed s2 v / 2 ^ scale) = signed (xorb s1 s2) top.
Proof.
  intros Hv. rewrite signed_mul, top_split.
  replace (2 ^ 2800 * 2 ^ scale * v) with (2 ^ 2800 * v * 2 ^ scale) by lia.
  apply rzs_quot_big.
  apply Z.le_trans with (2 ^ 2800 * 2 ^ (scale - 1074)).
  - rewrite <- pow2_split by (unfold scale; lia).
    apply pow2_le. unfold scale. lia.
  - apply Z.mul_le_mono_nonneg_l; [| assumption].
    pose proof (pow2_pos 2800 ltac:(lia)). lia.
Qed.

Lemma finite_above_grid (s : bool) (m : positive) (e : Z) :
  valid_binary (S754_finite s m e) = true ->
  2 ^ (scale - 1074) <= Zpos m * 2 ^ (e + scale).
Proof.
  intros Hv. destruct (valid_finite s m e Hv) as (He & _).
  apply Z.le_trans with (1 * 2 ^ (e + scale)).
  - rewrite Z.mul_1_l. apply pow2_le. unfold scale. lia.
  - apply Z.mul_le_mono_nonneg_r; [| lia].
    pose proof (pow2_pos (e + scale) ltac:(unfold scale; lia)). lia.
Qed.

Theorem mul_sval (x y : spec_float) :
  valid_binary x = true -> valid_binary y = true ->
  SFmul prec emax x y <> S754_nan ->
  sval (SFmul prec emax x y) = rzs (sval x * sval y / 2 ^ scale).
Proof.
  intros Vx Vy Hn.
  destruct x as [sx | sx | | sx mx ex]; destruct y as [sy | sy | | sy my ey];
    try (exfalso; apply Hn; reflexivity).
  - reflexivity.
  - cbn [SFmul]. change (sval (S754_zero sx)) with 0.
    rewrite Z.mul_0_l. reflexivity.
  - cbn [SFmul]. change (sval (S754_infinity sx)) with (signed sx top).
    change (sval (S754_infinity sy)) with (signed sy top).
    change (sval (S754_infinity (xorb sx sy))) with (signed (xorb sx sy) top).
    symmetry. apply rzs_top_times.
    pose proof top_above.
    assert (2 ^ (scale - 1074) <= 2 ^ (1024 + scale))
      by (apply pow2_le; unfold scale; lia).
    lia.
  - cbn [SFmul]. change (sval (S754_infinity sx)) with (signed sx top).
    change (sval (S754_infinity (xorb sx sy))) with (signed (xorb sx sy) top).
    change (sval (S754_finite sy my ey))
      with (signed sy (Zpos my * 2 ^ (ey + scale))).
    symmetry. apply rzs_top_times.
    apply (finite_above_grid sy my ey Vy).
  - cbn [SFmul]. change (sval (S754_zero sy)) with 0.
    rewrite Z.mul_0_r. reflexivity.
  - cbn [SFmul]. change (sval (S754_infinity sy)) with (signed sy top).
    change (sval (S754_infinity (xorb sx sy))) with (signed (xorb sx sy) top).
    change (sval (S754_finite sx mx ex))
      with (signed sx (Zpos mx * 2 ^ (ex + scale))).
    rewrite Z.mul_comm, xorb_comm. symmetry. apply rzs_top_times.
    apply (finite_above_grid sx mx ex Vx).
  - apply mul_finite_sval; assumption.
Qed.

End RoundingOps.

(** ** Ordered arithmetic *)

Lemma dval_add (u v : double) :
  is_number (u + v) -> dval (u + v) = rzs (dval u + dval v).
Proof.
  unfold is_number, dval. rewrite add_spec. intros H.
  apply add_sval; auto using Prim2SF_valid.
Qed.

Lemma dval_sub (u v : double) :
  is_number (u - v) -> dval (u - v) = rzs (dval u - dval v).
Proof.
  unfold is_number, dval. rewrite sub_spec. intros H.
  apply sub_sval; auto using Prim2SF_valid.
Qed.

Lemma dval_mul (u v : double) :
  is_number (u * v) ->
  dval (u * v) = rzs (dval u * dval v / 2 ^ scale)%Z.
Proof.
  unfold is_number, dval. rewrite mul_spec. intros H.
  apply mul_sval; auto using Prim2SF_valid.
Qed.

Lemma finite_is_number (v : double) : finite_double v -> is_number v.
Proof.
  unfold finite_double, is_number. destruct (Prim2SF v); intros H;
    try contradiction; discriminate.
Qed.

Lemma number_add_finite (u v : double) :
  is_number u -> finite_double v -> is_number (u + v).
Proof.
  unfold is_number, finite_double. rewrite add_spec.
  destruct (Prim2SF u) as [su | su | | su mu eu] eqn:Eu;
    destruct (Prim2SF v) as [sv | sv | | sv mv ev] eqn:Ev;
    intros Hu Hv; try contradiction; try congruence;
    try (cbn; discriminate).
  - cbn. destruct su, sv; discriminate.
  - pose proof (Prim2SF_valid u) as Vu. pose proof (Prim2SF_valid v) as Vv.
    rewrite Eu in Vu. rewrite Ev in Vv.
    destruct (valid_finite _ _ _ Vu) as (H1 & _).
    destruct (valid_finite _ _ _ Vv) as (H2 & _).
    apply add_finite_sval; assumption.
Qed.

Lemma number_sub_finite (u v : double) :
  is_number u -> finite_double v -> is_number (u - v).
Proof.
  unfold is_number, finite_double. rewrite sub_spec.
  destruct (Prim2SF u) as [su | su | | su mu eu] eqn:Eu;
    destruct (Prim2SF v) as [sv | sv | | sv mv ev] eqn:Ev;
    intros Hu Hv; try contradiction; try congruence;
    try (cbn; discriminate).
  - cbn. destruct su, sv; discriminate.
  - pose proof (Prim2SF_valid u) as Vu. pose proof (Prim2SF_valid v) as Vv.
    rewrite Eu in Vu. rewrite Ev in Vv.
    destruct (valid_finite _ _ _ Vu) as (H1 & _).
    destruct (valid_finite _ _ _ Vv) as (H2 & _).
    apply sub_finite_sval; assumption.
Qed.

Lemma number_finite_sub (u v : double) :
  finite_double u -> is_number v -> is_number (u - v).
Proof.
  unfold is_number, finite_double. rewrite sub_spec.
  destruct (Prim2SF u) as [su | su | | su mu eu] eqn:Eu;
    destruct (Prim2SF v) as [sv | sv | | sv mv ev] eqn:Ev;
    intros Hu Hv; try contradiction; try congruence;
    try (cbn; discriminate).
  - cbn. destruct su, sv; discriminate.
  - pose proof (Prim2SF_valid u) as Vu. pose proof (Prim2SF_valid v) as Vv.
    rewrite Eu in Vu. rewrite Ev in Vv.
    destruct (valid_finite _ _ _ Vu) as (H1 & _).
    destruct (valid_finite _ _ _ Vv) as (H2 & _).
    apply sub_finite_sval; assumption.
Qed.

(** A product is a NaN only from a NaN or from zero times infinity. *)
Lemma number_mul (u v : double) :
  is_number u -> is_number v -> dval u <> 0%Z -> dval v <> 0%Z ->
  is_number (u * v).
Proof.
  unfold is_number, dval. rewrite mul_spec.
  destruct (Prim2SF u) as [su | su | | su mu eu] eqn:Eu;
    destruct (Prim2SF v) as [sv | sv | | sv mv ev] eqn:Ev;
    intros Hu Hv Zu Zv; try congruence; try (cbn; discriminate);
    try (exfalso; apply Zu; reflexivity);
    try (exfalso; apply Zv; reflexivity).
  apply round_aux_number.
Qed.


Lemma dval_nonzero_finite (v : double) :
  finite_double v -> ~ zero_double v -> dval v <> 0%Z.
Proof.
  unfold finite_double, dval. intros Hf Hz.
  destruct (Prim2SF v) as [s | s | | s m e] eqn:E; try contradiction.
  - exfalso. apply Hz. apply (zero_of_spec v s E).
  - pose proof (Prim2SF_valid v) as V. rewrite E in V.
    destruct (valid_finite_val s m e V) as ((Hp & _) & _).
    cbn [sval]. destruct s; cbn [signed]; lia.
Qed.

(** Subtraction keeps the order of its first argument and reverses that of
    its second. *)
Lemma sub_mono_l (u1 u2 v : double) :
  (u1 <=? u2) = true -> is_number (u1 - v) -> is_number (u2 - v) ->
  (u1 - v <=? u2 - v) = true.
Proof.
  intros H N1 N2. destruct (leb_true_dval u1 u2 H) as (_ & _ & Hle).
  apply leb_true_of_le; try assumption.
  rewrite (dval_sub u1 v N1), (dval_sub u2 v N2). apply rzs_mono. lia.
Qed.

Lemma sub_mono_r (u v1 v2 : double) :
  (v1 <=? v2) = true -> is_number (u - v1) -> is_number (u - v2) ->
  (u - v2 <=? u - v1) = true.
Proof.
  intros H N1 N2. destruct (leb_true_dval v1 v2 H) as (_ & _ & Hle).
  apply leb_true_of_le; try assumption.
  rewrite (dval_sub u v1 N1), (dval_sub u v2 N2). apply rzs_mono. lia.
Qed.

Lemma add_mono_r (u v1 v2 : double) :
  (v1 <=? v2) = true -> is_number (u + v1) -> is_number (u + v2) ->
  (u + v1 <=? u + v2) = true.
Proof.
  intros H N1 N2. destruct (leb_true_dval v1 v2 H) as (_ & _ & Hle).
  apply leb_true_of_le; try assumption.
  rewrite (dval_add u v1 N1), (dval_add u v2 N2). apply rzs_mono. lia.
Qed.

(** Multiplication by something that is not negative keeps the order. *)
Lemma mul_mono_r (k v1 v2 : double) :
  (0 <=? k) = true -> (v1 <=? v2) = true ->
  is_number (k * v1) -> is_number (k * v2) ->
  (k * v1 <=? k * v2) = true.
Proof.
  intros Hk H N1 N2.
  destruct (leb_true_dval 0 k Hk) as (_ & _ & Hk0).
  change (dval 0) with 0%Z in Hk0.
  destruct (leb_true_dval v1 v2 H) as (_ & _ & Hle).
  apply leb_true_of_le; try assumption.
  rewrite (dval_mul k v1 N1), (dval_mul k v2 N2). apply rzs_mono.
  apply Z.div_le_mono; [apply pow2_pos; unfold scale; lia |].
  apply Z.mul_le_mono_nonneg_l; assumption.
Qed.


Lemma number_finite_add (u v : double) :
  finite_double u -> is_number v -> is_number (u + v).
Proof.
  unfold is_number, finite_double. rewrite add_spec.
  destruct (Prim2SF u) as [su | su | | su mu eu] eqn:Eu;
    destruct (Prim2SF v) as [sv | sv | | sv mv ev] eqn:Ev;
    intros Hu Hv; try contradiction; try congruence;
    try (cbn; discriminate).
  - cbn. destruct su, sv; discriminate.
  - pose proof (Prim2SF_valid u) as Vu. pose proof (Prim2SF_valid v) as Vv.
    rewrite Eu in Vu. rewrite Ev in Vv.
    destruct (valid_finite _ _ _ Vu) as (H1 & _).
    destruct (valid_finite _ _ _ Vv) as (H2 & _).
    apply add_finite_sval; assumption.
Qed.

Lemma number_or_nan (v : double) : is_number v \/ v = nan.
Proof.
  unfold is_number. destruct (Prim2SF v) eqn:E;
    try (left; discriminate).
  right. apply nan_of_spec. exact E.
Qed.

Lemma nan_not_number : ~ is_number nan.
Proof. intros H. apply H. reflexivity. Qed.

Lemma rzs_dval (v : double) : finite_double v -> rzs (dval v) = dval v.
Proof.
  unfold finite_double, dval. intros H.
  apply rzs_valid; [apply Prim2SF_valid |].
  destruct (Prim2SF v); try contradiction; exact I.
Qed.

Lemma leb_trans (u v w : double) :
  (u <=? v) = true -> (v <=? w) = true -> (u <=? w) = true.
Proof.
  intros H1 H2.
  destruct (leb_true_dval u v H1) as (Nu & Nv & L1).
  destruct (leb_true_dval v w H2) as (_ & Nw & L2).
  apply leb_true_of_le; try assumption. lia.
Qed.

Lemma leb_ltb_trans (u v w : double) :
  (u <=? v) = true -> (v <? w) = true -> (u <? w) = true.
Proof.
  intros H1 H2.
  destruct (leb_true_dval u v H1) as (Nu & Nv & L1).
  destruct (ltb_true_dval v w H2) as (_ & Nw & L2).
  rewrite (ltb_dval u w Nu Nw). apply Z.ltb_lt. lia.
Qed.

Lemma ltb_leb_false (u v : double) :
  (u <=? v) = true -> (v <? u) = false.
Proof.
  intros H. destruct (leb_true_dval u v H) as (Nu & Nv & L).
  apply ltb_false_of_le; assumption.
Qed.


(** ** The cosine branch: 5.5 c - 4.5 *)

Lemma formula_number (c : double) : is_number c -> is_number (5.5 * c - 4.5).
Proof.
  intros N. apply number_sub_finite; [| exact I].
  unfold is_number in *. rewrite mul_spec.
  change (Prim2SF 5.5) with (S754_finite false 6192449487634432 (-50)).
  destruct (Prim2SF c); try congruence; try (cbn; discriminate).
  apply round_aux_number.
Qed.


(** The cosine branch keeps the order of the cosines. *)
Lemma formula_mono (c1 c2 : double) :
  (c1 <=? c2) = true -> (5.5 * c1 - 4.5 <=? 5.5 * c2 - 4.5) = true.
Proof.
  intros H. destruct (leb_true_numbers c1 c2 H) as [N1 N2].
  pose proof (formula_number c1 N1) as F1.
  pose proof (formula_number c2 N2) as F2.
  apply sub_mono_l; try assumption.
  assert (M1 : is_number (5.5 * c1)).
  { destruct (number_or_nan (5.5 * c1)) as [M | E]; [exact M |].
    exfalso. apply F1. rewrite E. reflexivity. }
  assert (M2 : is_number (5.5 * c2)).
  { destruct (number_or_nan (5.5 * c2)) as [M | E]; [exact M |].
    exfalso. apply F2. rewrite E. reflexivity. }
  apply mul_mono_r; try assumption. reflexivity.
Qed.


(** ** The branches of the trap *)

Section TrapBranches.

Variable cos : double -> double.

Lemma trap_outer (r h dedge : double) :
  (dedge * (1 + h) <? r) = true ->
  rebx_calculate_planet_trap cos r h dedge = 1.
Proof. unfold rebx_calculate_planet_trap. intros ->. reflexivity. Qed.

Lemma trap_window (r h dedge : double) :
  (dedge * (1 + h) <? r) = false -> (dedge * (1 - h) <? r) = true ->
  rebx_calculate_planet_trap cos r h dedge
  = 5.5 * cos (trap_angle r h dedge) - 4.5.
Proof.
  unfold rebx_calculate_planet_trap, trap_angle. intros -> ->. reflexivity.
Qed.

Lemma trap_floor (r h dedge : double) :
  (dedge * (1 + h) <? r) = false -> (dedge * (1 - h) <? r) = false ->
  rebx_calculate_planet_trap cos r h dedge = -10.
Proof. unfold rebx_calculate_planet_trap. intros -> ->. reflexivity. Qed.

End TrapBranches.

(** ** The window *)

Lemma sides_ordered (h : double) :
  (0 <=? h) = true -> (1 - h <=? 1 + h) = true.
Proof.
  intros H. destruct (leb_true_dval 0 h H) as (_ & Nh & Hh).
  change (dval 0) with 0%Z in Hh.
  assert (N1 : is_number (1 - h)) by (apply number_finite_sub; [exact I | exact Nh]).
  assert (N2 : is_number (1 + h)) by (apply number_finite_add; [exact I | exact Nh]).
  apply leb_true_of_le; try assumption.
  rewrite (dval_sub 1 h N1), (dval_add 1 h N2). apply rzs_mono. lia.
Qed.

Lemma window_ordered (h dedge : double) :
  (0 <=? h) = true -> (0 <=? dedge) = true ->
  is_number (dedge * (1 - h)) -> is_number (dedge * (1 + h)) ->
  (dedge * (1 - h) <=? dedge * (1 + h)) = true.
Proof.
  intros Hh Hd N1 N2. apply mul_mono_r; try assumption.
  apply sides_ordered. exact Hh.
Qed.

Lemma ltb_leb (u v : double) : (u <? v) = true -> (u <=? v) = true.
Proof.
  intros H. destruct (ltb_true_dval u v H) as (Nu & Nv & L).
  apply leb_true_of_le; try assumption. lia.
Qed.

Lemma outer_edge_number (h dedge : double) :
  (0 <=? h) = true -> (0 <? dedge) = true -> is_number (dedge * (1 + h)).
Proof.
  intros Hh Hd.
  destruct (leb_true_dval 0 h Hh) as (_ & Nh & Lh).
  destruct (ltb_true_dval 0 dedge Hd) as (_ & Nd & Ld).
  change (dval 0) with 0%Z in Lh, Ld.
  assert (N2 : is_number (1 + h)) by (apply number_finite_add; [exact I | exact Nh]).
  apply number_mul; try assumption; [lia |].
  rewrite (dval_add 1 h N2).
  assert (H : (rzs (dval 1%float) <= rzs (dval 1%float + dval h))%Z)
    by (apply rzs_mono; lia).
  rewrite (rzs_dval 1 I) in H.
  assert (0 < dval 1%float)%Z by reflexivity. lia.
Qed.

(** ** The three branches *)

(** C3, as stated, fails in its first example: at r = dedge = 1 with
    h = 0.1 the code computes the angle 1.5707963267948979, above M_PI/2
    = 1.5707963267948966, where the cosine is about -1.3e-15; with any
    cosine of at most -2^-53 there, the trap is below -4.5, and with the
    cosine -0x1.6e59d9cceba4p-50 it is -4.5000000000000071. *)
Lemma trap_at_edge_is_below :
  trap_angle 1 d0_1 1 = angle_at_edge
  /\ (M_PI / 2 <? angle_at_edge) = true
  /\ (forall cos : double -> double,
        (cos angle_at_edge <=? -0x1p-53) = true ->
        (rebx_calculate_planet_trap cos 1 d0_1 1 <? -4.5) = true)
  /\ (forall cos : double -> double,
        cos angle_at_edge = -0x1.6e59d9cceba4p-50 ->
        rebx_calculate_planet_trap cos 1 d0_1 1 = -0x1.2000000000008p+2).
Proof.
  split; [reflexivity |]. split; [reflexivity |]. split.
  - intros cos H.
    change (rebx_calculate_planet_trap cos 1 d0_1 1)
      with (5.5 * cos angle_at_edge - 4.5).
    apply (leb_ltb_trans _ (5.5 * -0x1p-53 - 4.5)).
    + apply formula_mono. exact H.
    + reflexivity.
  - intros cos H.
    change (rebx_calculate_planet_trap cos 1 d0_1 1)
      with (5.5 * cos angle_at_edge - 4.5).
    rewrite H. reflexivity.
Qed.

(** C3 (amended): for every r, h and dedge the trap returns 1.0 when
    r > dedge (1 + h) and the cosine form, rounded operation by operation,
    when dedge (1 - h) < r <= dedge (1 + h); for h > 0 and dedge > 0 it
    returns -10.0 when r <= dedge (1 - h).  In particular
    trap(2, 0.1, 1) = 1, trap(0, 0.1, 1) = -10 and
    trap(1, 0.1, 1) = 5.5 cos(1.5707963267948979) - 4.5. *)
Theorem trap_piecewise (cos : double -> double) (r h dedge : double) :
  ((dedge * (1 + h) <? r) = true ->
   rebx_calculate_planet_trap cos r h dedge = 1)
  /\ ((dedge * (1 - h) <? r) = true -> (r <=? dedge * (1 + h)) = true ->
      rebx_calculate_planet_trap cos r h dedge
      = 5.5 * cos (((dedge * (1 + h) - r) * 2 * M_PI) / (4 * h * dedge))
        - 4.5)
  /\ ((0 <? h) = true -> (0 <? dedge) = true ->
      (r <=? dedge * (1 - h)) = true ->
      rebx_calculate_planet_trap cos r h dedge = -10)
  /\ rebx_calculate_planet_trap cos 2 d0_1 1 = 1
  /\ rebx_calculate_planet_trap cos 0 d0_1 1 = -10
  /\ rebx_calculate_planet_trap cos 1 d0_1 1
     = 5.5 * cos angle_at_edge - 4.5.
Proof.
  split; [apply trap_outer |]. split; [| split].
  - intros Hin Hout. apply trap_window; [| exact Hin].
    apply ltb_leb_false. exact Hout.
  - intros Hh Hd Hr.
    destruct (leb_true_numbers _ _ Hr) as [Nr NA].
    pose proof (outer_edge_number h dedge (ltb_leb _ _ Hh) Hd) as NB.
    pose proof (window_ordered h dedge (ltb_leb _ _ Hh) (ltb_leb _ _ Hd)
                  NA NB) as HAB.
    apply trap_floor.
    + apply ltb_leb_false. apply (leb_trans _ _ _ Hr HAB).
    + apply ltb_leb_false. exact Hr.
  - repeat split; reflexivity.
Qed.

Lemma trap_piecewise_witness :
  rebx_calculate_planet_trap sample_cos 3 d0_1 2 = 1
  /\ rebx_calculate_planet_trap sample_cos 2 d0_1 2
     = 5.5 * sample_cos (((2 * (1 + d0_1) - 2) * 2 * M_PI) / (4 * d0_1 * 2))
       - 4.5
  /\ rebx_calculate_planet_trap sample_cos 1 d0_1 2 = -10.
Proof.
  split; [| split].
  - destruct (trap_piecewise sample_cos 3 d0_1 2) as (H & _).
    apply H. reflexivity.
  - destruct (trap_piecewise sample_cos 2 d0_1 2) as (_ & H & _).
    apply H; reflexivity.
  - destruct (trap_piecewise sample_cos 1 d0_1 2) as (_ & _ & H & _).
    apply H; reflexivity.
Defined.

(** ** The range *)





(** ** The boundaries of the window *)





Lemma order_cases (u v : double) :
  is_number u -> is_number v ->
  ((u <? v) = true /\ (v <=? u) = false)
  \/ ((u <? v) = false /\ (v <=? u) = true).
Proof.
  intros Nu Nv. rewrite (ltb_dval u v Nu Nv), (leb_dval v u Nv Nu).
  destruct (Z.ltb_spec (dval u) (dval v)); [left | right];
    (split; [reflexivity |]).
  - apply Z.leb_gt. assumption.
  - apply Z.leb_le. assumption.
Qed.




(** ** Monotonicity in the window *)




(** ** Required force parameters *)

(** C1: with tau_a set on the body and the width or the edge missing on
    the force, the evaluator has no defined result: line 152 passes [*h]
    and [*dedge] to the trap through a null pointer.  It does not set
    inv_tau_a = 0 and returns no acceleration. *)
Theorem missing_width_is_dereferenced
    (cos : double -> double)
    (conv : double -> reb_particle -> reb_particle -> reb_orbit * Z)
    (sim : reb_simulation) (force : rebx_force) (p source : reb_particle) :
  rebx_get_param (ap p) "tau_a" <> None ->
  rebx_get_param (force_ap force) "disc_edge_width" = None
  \/ rebx_get_param (force_ap force) "inner_disc_edge" = None ->
  rebx_calculating_orbits_with_inner_disc_edge cos conv sim force p source
  = None.
Proof.
  intros Ha Hmiss. unfold rebx_calculating_orbits_with_inner_disc_edge.
  rewrite read_timescales_null_dereference by assumption. reflexivity.
Qed.

Lemma missing_width_is_dereferenced_witness :
  rebx_calculating_orbits_with_inner_disc_edge sample_cos sample_conversion
    sample_sim force_without_width
    (sample_planet [("tau_a", PARAM_DOUBLE 1)]) sample_star
  = None.
Proof.
  apply missing_width_is_dereferenced.
  - discriminate.
  - left. reflexivity.
Defined.

(** ** The error flag of the conversion *)

(** The evaluator never looks at the flag: two conversions that return the
    same orbits give the same accelerations. *)
Lemma error_flag_is_ignored
    (cos : double -> double)
    (conv1 conv2 : double -> reb_particle -> reb_particle -> reb_orbit * Z)
    (sim : reb_simulation) (force : rebx_force) (p source : reb_particle) :
  fst (conv1 (G sim) p source) = fst (conv2 (G sim) p source) ->
  rebx_calculating_orbits_with_inner_disc_edge cos conv1 sim force p source
  = rebx_calculating_orbits_with_inner_disc_edge cos conv2 sim force p source.
Proof.
  intros E.
  unfold rebx_calculating_orbits_with_inner_disc_edge, read_timescales.
  destruct (conv1 (G sim) p source) as [o1 e1].
  destruct (conv2 (G sim) p source) as [o2 e2].
  simpl in E. subst o2. reflexivity.
Qed.

(** C2: a failed conversion (reference body without mass, error flag 1,
    NaN semimajor axis) with tau_a = 1, h = 0.1 and dedge = 1: the NaN is
    handed to the trap, which answers -10 whatever the cosine, and the
    planet of velocity (0,1,0) is accelerated by (-0,-5,-0); the radial
    channel is not skipped. *)
Theorem failed_conversion_reaches_trap (cos : double -> double) :
  snd (sample_conversion (G sample_sim)
         (sample_planet [("tau_a", PARAM_DOUBLE 1)]) massless_star)
  = 1%Z
  /\ rebx_calculate_planet_trap cos
       (a0_of sample_conversion sample_sim
          (sample_planet [("tau_a", PARAM_DOUBLE 1)]) massless_star)
       d0_1 1
     = -10
  /\ rebx_calculating_orbits_with_inner_disc_edge cos sample_conversion
       sample_sim edge_force
       (sample_planet [("tau_a", PARAM_DOUBLE 1)]) massless_star
     = Some (mk_vec3d (-0) (-5) (-0)).
Proof.
  split; [reflexivity |]. split; reflexivity.
Qed.

(** ** The drag term *)

Lemma finite_not_infinite (v : double) :
  finite_double v -> v <> infinity.
Proof. intros H ->. exact H. Qed.





(** ** Channels that are switched off *)






(** ** The division by r2 *)

Lemma number_add_inv (u v : double) :
  is_number (u + v) -> is_number u /\ is_number v.
Proof.
  intros H.
  destruct (number_or_nan u) as [Nu | ->];
    [| exfalso; apply H; rewrite add_nan_l; reflexivity].
  destruct (number_or_nan v) as [Nv | ->];
    [| exfalso; apply H; rewrite add_nan_r; reflexivity].
  split; assumption.
Qed.

Lemma square_nonneg (v : double) :
  is_number (v * v) -> (0 <= dval (v * v)%float)%Z.
Proof.
  intros N. rewrite (dval_mul v v N).
  change 0%Z with (rzs 0). apply rzs_mono.
  apply Z.div_pos; [| apply pow2_pos; unfold scale; lia].
  apply Z.square_nonneg.
Qed.

Lemma sum_nonneg (u v : double) :
  is_number (u + v) -> (0 <= dval u)%Z -> (0 <= dval v)%Z ->
  (0 <= dval (u + v)%float)%Z.
Proof.
  intros N Hu Hv. rewrite (dval_add u v N).
  change 0%Z with (rzs 0). apply rzs_mono. lia.
Qed.

(** [r2] is a sum of squares: a NaN, or not negative. *)
Lemma r2_nonneg (p source : reb_particle) :
  is_number (r2_of p source) -> (0 <=? r2_of p source) = true.
Proof.
  intros N. unfold r2_of in *.
  destruct (number_add_inv _ _ N) as [N12 N3].
  destruct (number_add_inv _ _ N12) as [N1 N2].
  apply leb_true_of_le; [discriminate | exact N |].
  change (dval 0) with 0%Z.
  apply sum_nonneg; [exact N | | apply square_nonneg; exact N3].
  apply sum_nonneg; [exact N12 | |]; apply square_nonneg; assumption.
Qed.

Lemma r2_at_same_position (p source : reb_particle) :
  finite_position p -> same_position p source -> r2_of p source = 0.
Proof.
  intros (Fx & Fy & Fz) (Ex & Ey & Ez).
  unfold r2_of, rel_x, rel_y, rel_z. rewrite <- Ex, <- Ey, <- Ez.
  rewrite !sub_self by assumption. reflexivity.
Qed.

Lemma prefac_at_same_position (ts : timescales) (p source : reb_particle) :
  finite_position p -> same_position p source ->
  prefac_of ts p source = nan.
Proof.
  intros Fp Es. unfold prefac_of.
  rewrite (r2_at_same_position p source Fp Es).
  destruct Fp as (Fx & Fy & Fz). destruct Es as (Ex & Ey & Ez).
  unfold vdotr_of, rel_x, rel_y, rel_z. rewrite <- Ex, <- Ey, <- Ez.
  rewrite !sub_self by assumption.
  rewrite (div_by_zero_nan _ 0).
  - apply div_nan_l.
  - apply two_mul_zero_or_nan.
    repeat apply add_zero_or_nan; apply mul_zero_l; left; reflexivity.
  - left. reflexivity.
Qed.

Lemma acceleration_at_same_position (ts : timescales)
    (p source : reb_particle) :
  finite_position p -> same_position p source ->
  vec_add (drag_term ts p source) (vdotr_term ts p source) = vec_nan.
Proof.
  intros Fp Es. unfold vec_add, vdotr_term, vec_nan.
  cbn [vec_x vec_y vec_z].
  rewrite (prefac_at_same_position ts p source Fp Es).
  rewrite !mul_nan_l, add_nan_l, !add_nan_r. reflexivity.
Qed.

Lemma positive_not_zero (v : double) :
  (0 <? v) = true -> ~ zero_double v /\ is_number v.
Proof.
  intros H. destruct (ltb_true_dval 0 v H) as (_ & N & L).
  split; [| exact N]. intros [-> | ->]; discriminate.
Qed.

(** C10, as stated, fails: a body at (1e-200, 0, 0) is not at the
    position of the reference body at the origin (dx = 1e-200 > 0), yet
    r2 = dx dx + 0 + 0 underflows to 0 and, with tau_e = 4 and velocity
    (1, 0, 0), the division by r2 is a division by zero: the returned
    acceleration is (inf, NaN, NaN). *)
Lemma r2_underflows_to_zero :
  (0 <? rel_x (near_planet [("tau_e", PARAM_DOUBLE 4)]) sample_star) = true
  /\ r2_of (near_planet [("tau_e", PARAM_DOUBLE 4)]) sample_star = 0
  /\ (forall cos : double -> double,
        rebx_calculating_orbits_with_inner_disc_edge cos sample_conversion
          sample_sim edge_force
          (near_planet [("tau_e", PARAM_DOUBLE 4)]) sample_star
        = Some (mk_vec3d infinity nan nan)).
Proof.
  split; [reflexivity |]. split; [reflexivity |].
  intros cos. reflexivity.
Qed.

(** C10 (amended): when tau_e or tau_inc is below INFINITY the evaluator
    adds the vdotr term, whose prefactor divides by
    r2 = dx dx + dy dy + dz dz unguarded.  r2 is a NaN or not negative.
    For a body at the finite position of the reference body r2 is 0 and
    every component of the returned acceleration is a NaN.  The
    precondition under which the division is no division by zero is that
    r2 as computed is above 0 (that the positions differ is not enough:
    the squares can underflow). *)
Theorem vdotr_prefactor_divides_by_r2
    (cos : double -> double)
    (conv : double -> reb_particle -> reb_particle -> reb_orbit * Z)
    (sim : reb_simulation) (force : rebx_force) (p source : reb_particle)
    (ts : timescales) :
  read_timescales cos conv sim force p source = Some ts ->
  damps_e_or_inc ts = true ->
  rebx_calculating_orbits_with_inner_disc_edge cos conv sim force p source
  = Some (vec_add (drag_term ts p source) (vdotr_term ts p source))
  /\ prefac_of ts p source
     = 2 * vdotr_of p source / r2_of p source / tau_e ts
  /\ (r2_of p source = nan \/ (0 <=? r2_of p source) = true)
  /\ (finite_position p -> same_position p source ->
      r2_of p source = 0
      /\ rebx_calculating_orbits_with_inner_disc_edge cos conv sim force p
           source
         = Some vec_nan)
  /\ ((0 <? r2_of p source) = true ->
      ~ zero_double (r2_of p source) /\ is_number (r2_of p source)).
Proof.
  intros Ets Hc.
  assert (Hacc : rebx_calculating_orbits_with_inner_disc_edge cos conv sim
                   force p source
                 = Some (vec_add (drag_term ts p source)
                           (vdotr_term ts p source))).
  { unfold rebx_calculating_orbits_with_inner_disc_edge.
    rewrite Ets. cbn [bind]. rewrite acceleration_split, Hc. reflexivity. }
  split; [exact Hacc |]. split; [reflexivity |]. split; [| split].
  - destruct (number_or_nan (r2_of p source)) as [N | E];
      [right; apply r2_nonneg; exact N | left; exact E].
  - intros Fp Es. split; [apply r2_at_same_position; assumption |].
    rewrite Hacc. f_equal. apply acceleration_at_same_position; assumption.
  - apply positive_not_zero.
Qed.

Lemma vdotr_prefactor_divides_by_r2_witness :
  rebx_calculating_orbits_with_inner_disc_edge sample_cos sample_conversion
    sample_sim force_without_width
    (sample_planet [("tau_e", PARAM_DOUBLE 100)]) sample_star
  = Some (vec_add
            (drag_term (mk_timescales 0 100 INFINITY)
               (sample_planet [("tau_e", PARAM_DOUBLE 100)]) sample_star)
            (vdotr_term (mk_timescales 0 100 INFINITY)
               (sample_planet [("tau_e", PARAM_DOUBLE 100)]) sample_star))
  /\ ~ zero_double
         (r2_of (sample_planet [("tau_e", PARAM_DOUBLE 100)]) sample_star)
  /\ rebx_calculating_orbits_with_inner_disc_edge sample_cos
       sample_conversion sample_sim force_without_width
       (mk_particle 0 0 0 0 1 0 d0_001 [("tau_e", PARAM_DOUBLE 100)])
       sample_star
     = Some vec_nan.
Proof.
  split; [| split].
  - apply (vdotr_prefactor_divides_by_r2 sample_cos sample_conversion
             sample_sim force_without_width
             (sample_planet [("tau_e", PARAM_DOUBLE 100)]) sample_star
             (mk_timescales 0 100 INFINITY)); reflexivity.
  - apply (vdotr_prefactor_divides_by_r2 sample_cos sample_conversion
             sample_sim force_without_width
             (sample_planet [("tau_e", PARAM_DOUBLE 100)]) sample_star
             (mk_timescales 0 100 INFINITY)); reflexivity.
  - apply (vdotr_prefactor_divides_by_r2 sample_cos sample_conversion
             sample_sim force_without_width
             (mk_particle 0 0 0 0 1 0 d0_001 [("tau_e", PARAM_DOUBLE 100)])
             sample_star (mk_timescales 0 100 INFINITY));
      try reflexivity; repeat split; exact I.
Defined.

(** ** The entry point *)

(** C9: the entry point hands the helper the Jacobi frame when the force
    has no "coordinates" parameter and the configured frame when it has
    one, and in every call the back-reaction flag is 1. *)
Theorem entry_point_frame_and_back_reaction
    (cos : double -> double)
    (conv : double -> reb_particle -> reb_particle -> reb_orbit * Z)
    (applied : Type)
    (rebx_com_force :
       reb_simulation -> rebx_force -> REBX_COORDINATES -> Z -> string ->
       (reb_simulation -> rebx_force -> reb_particle -> reb_particle ->
        option reb_vec3d) ->
       list reb_particle -> Z -> applied)
    (sim : reb_simulation) (force : rebx_force)
    (particles : list reb_particle) (N : Z) :
  (rebx_get_param (force_ap force) "coordinates" = None ->
   rebx_inner_disc_edge cos conv applied rebx_com_force sim force particles N
   = Some (rebx_com_force sim force REBX_COORDINATES_JACOBI 1%Z "primary"
             (rebx_calculating_orbits_with_inner_disc_edge cos conv)
             particles N))
  /\ (forall c : REBX_COORDINATES,
        rebx_get_param (force_ap force) "coordinates" = Some (PARAM_INT c) ->
        rebx_inner_disc_edge cos conv applied rebx_com_force sim force
          particles N
        = Some (rebx_com_force sim force c 1%Z "primary"
                  (rebx_calculating_orbits_with_inner_disc_edge cos conv)
                  particles N))
  /\ (forall r : applied,
        rebx_inner_disc_edge cos conv applied rebx_com_force sim force
          particles N
        = Some r ->
        exists c : REBX_COORDINATES,
          r = rebx_com_force sim force c 1%Z "primary"
                (rebx_calculating_orbits_with_inner_disc_edge cos conv)
                particles N).
Proof.
  unfold rebx_inner_disc_edge.
  split; [| split].
  - intros E. rewrite E. reflexivity.
  - intros c E. rewrite E. reflexivity.
  - intros r.
    destruct (rebx_get_param (force_ap force) "coordinates") as [[d | c] |];
      cbn [is_null negb load_int bind]; intros E;
      try discriminate; injection E as <-; eexists; reflexivity.
Qed.

Lemma entry_point_frame_and_back_reaction_witness :
  rebx_inner_disc_edge sample_cos sample_conversion _ record_frame
    sample_sim edge_force [sample_star; sample_planet []] 2%Z
  = Some (REBX_COORDINATES_JACOBI, 1%Z)
  /\ rebx_inner_disc_edge sample_cos sample_conversion _ record_frame
       sample_sim barycentric_force [sample_star; sample_planet []] 2%Z
     = Some (REBX_COORDINATES_BARYCENTRIC, 1%Z).
Proof.
  split.
  - destruct (entry_point_frame_and_back_reaction sample_cos
                sample_conversion _ record_frame sample_sim edge_force
                [sample_star; sample_planet []] 2%Z) as (H & _).
    apply H. reflexivity.
  - destruct (entry_point_frame_and_back_reaction sample_cos
                sample_conversion _ record_frame sample_sim
                barycentric_force [sample_star; sample_planet []] 2%Z)
      as (_ & H & _).
    apply (H REBX_COORDINATES_BARYCENTRIC). reflexivity.
Defined.

(** * Further properties of the planet trap *)

(** With a width of zero the window is empty: the trap is a step at
    [dedge * 1] and the cosine is never called. *)
Theorem trap_degenerate_window_is_step
    (cos : double -> double) (r h dedge : double) :
  zero_double h ->
  rebx_calculate_planet_trap cos r h dedge
  = if dedge * 1 <? r then 1 else -10.
Proof.
  intros [-> | ->]; unfold rebx_calculate_planet_trap;
    change (1 + 0) with 1; change (1 - 0) with 1;
    change (1 + -0) with 1; change (1 - -0) with 1;
    destruct (dedge * 1 <? r); reflexivity.
Qed.

Lemma trap_degenerate_window_is_step_witness :
  rebx_calculate_planet_trap sample_cos 1 0 1 = -10
  /\ rebx_calculate_planet_trap sample_cos 2 0 1 = 1.
Proof.
  split.
  - rewrite (trap_degenerate_window_is_step sample_cos 1 0 1);
      [reflexivity | left; reflexivity].
  - rewrite (trap_degenerate_window_is_step sample_cos 2 0 1);
      [reflexivity | left; reflexivity].
Defined.

(** A NaN in any argument is not propagated: both comparisons are false
    and the trap answers the floor value -10. *)
Theorem trap_of_nan_is_floor
    (cos : double -> double) (r h dedge : double) :
  r = nan \/ h = nan \/ dedge = nan ->
  rebx_calculate_planet_trap cos r h dedge = -10.
Proof.
  intros [-> | [-> | ->]]; unfold rebx_calculate_planet_trap.
  - rewrite !ltb_nan_r. reflexivity.
  - change (1 + nan) with nan. change (1 - nan) with nan.
    rewrite !mul_nan_r, !ltb_nan_l. reflexivity.
  - rewrite !mul_nan_l, !ltb_nan_l. reflexivity.
Qed.

Lemma trap_of_nan_is_floor_witness :
  rebx_calculate_planet_trap sample_cos nan d0_1 1 = -10.
Proof. apply trap_of_nan_is_floor. left. reflexivity. Defined.

(** * Further properties of the force evaluator *)

(** The evaluator returns an acceleration exactly when tau_e and tau_inc
    are doubles or not set and either tau_a is not set or tau_a, the width
    and the edge are all set (as doubles); in every other case it reads
    through a null pointer. *)
Theorem evaluator_returns_iff_well_configured
    (cos : double -> double)
    (conv : double -> reb_particle -> reb_particle -> reb_orbit * Z)
    (sim : reb_simulation) (force : rebx_force) (p source : reb_particle) :
  (exists v : reb_vec3d,
     rebx_calculating_orbits_with_inner_disc_edge cos conv sim force p source
     = Some v)
  <-> well_configured force p.
Proof.
  unfold well_configured, rebx_calculating_orbits_with_inner_disc_edge,
    read_timescales.
  destruct (conv (G sim) p source) as [o err].
  destruct (rebx_get_param (ap p) "tau_a") as [[ta | na] |];
    destruct (rebx_get_param (force_ap force) "disc_edge_width")
      as [[hv | nh] |];
    destruct (rebx_get_param (force_ap force) "inner_disc_edge")
      as [[dv | nd] |];
    destruct (rebx_get_param (ap p) "tau_e") as [[te | ne] |];
    destruct (rebx_get_param (ap p) "tau_inc") as [[ti | ni] |];
    cbn [is_null negb load_double bind absent_or_double double_param];
    (split;
     [ intros [v Hv]; try discriminate;
       repeat split; auto
     | intros (He & Hi & [Ha | (Ha & Hh & Hd)]);
       try contradiction; try discriminate; eexists; reflexivity ]).
Qed.

(** Without tau_a the evaluator uses neither the orbit conversion nor the
    force, nor the simulation, nor the cosine: the result is the same for
    any of them. *)
Theorem without_tau_a_conversion_and_force_unused
    (cos1 cos2 : double -> double)
    (conv1 conv2 : double -> reb_particle -> reb_particle -> reb_orbit * Z)
    (sim1 sim2 : reb_simulation) (force1 force2 : rebx_force)
    (p source : reb_particle) :
  rebx_get_param (ap p) "tau_a" = None ->
  rebx_calculating_orbits_with_inner_disc_edge cos1 conv1 sim1 force1 p source
  = rebx_calculating_orbits_with_inner_disc_edge cos2 conv2 sim2 force2 p
      source.
Proof.
  intros Ha.
  unfold rebx_calculating_orbits_with_inner_disc_edge, read_timescales.
  rewrite Ha.
  destruct (conv1 (G sim1) p source) as [o1 e1].
  destruct (conv2 (G sim2) p source) as [o2 e2].
  reflexivity.
Qed.

Lemma without_tau_a_conversion_and_force_unused_witness :
  rebx_calculating_orbits_with_inner_disc_edge sample_cos sample_conversion
    sample_sim edge_force (sample_planet [("tau_e", PARAM_DOUBLE 100)])
    massless_star
  = rebx_calculating_orbits_with_inner_disc_edge (fun _ => nan)
      (fun _ _ _ => (reb_orbit_nan, 2%Z)) (mk_simulation nan)
      force_without_width
      (sample_planet [("tau_e", PARAM_DOUBLE 100)]) massless_star.
Proof.
  apply without_tau_a_conversion_and_force_unused. reflexivity.
Defined.

